(** * Lane-level route planner (a3_astar/scripts/astarv5_utm.py)

    A shallow embedding of the planner's pure core: the lane cost model,
    the A* search over lane objects kept in a [heapq] open list, goal-lane
    truncation, loop removal and the assembly done by [try_compute_path].

    Conventions.
    - Distances, [g], [h] and [f] are Python floats: IEEE binary64, here
      Rocq's primitive floats.
    - A coordinate is a JSON number; only its value equality matters to the
      program (dictionary keys in [remove_cycles_from_path]), so the
      coordinate type is a parameter with decidable equality.
    - A geographic point is the pair [(pt[0], pt[1]) = (lon, lat)].
    - [geopy.distance.geodesic(p, q).meters] is a library call; it is a
      parameter of the development.  geopy reads each of its two tuple
      arguments positionally as (latitude, longitude).
    - Lane objects are mutable and shared between the [lanes] dictionary,
      the open list and the parent links; an object is referred to by its
      key in [lanes], the store of all lane objects ([load_lane_graph]
      stores each object under its own [path_id], and [try_compute_path]
      takes the start and the goal lane from [lanes.values()]).
    - Of the logging only the warning of [a_star_lane_level] is kept; the
      messages of the other functions and the UTM conversion of the
      published path are left out.
    - [geodesic] is a total function in the functions of the planner: they
      describe the calls in which no library call raises, and what is
      proved of a call that returns or publishes is proved of those.
      geopy's [ValueError] is added for the search in [Checked], with the
      link between the two.
    - Python loops that are not bounded by the length of a list run on a
      fuel argument here. *)

From Stdlib Require Import ZArith List Bool Lia.
From Stdlib Require Import Floats.PrimFloat.
From Stdlib Require Floats.SpecFloat Floats.FloatAxioms.
From Stdlib Require Numbers.Cyclic.Int63.Uint63.
From stdpp Require Import base option list gmap sets.

Local Open Scope Z_scope.
Local Open Scope nat_scope.

(** * Part I. The program *)

(** ** Geographic points and the geodesic library call *)

Section Geo.
Context {coord : Type}.

(** What [geodesic] is handed: a tuple read as (latitude, longitude). *)
Record LatLon := mkLatLon { lat : coord; lon : coord }.

(** A point of the data model: [pt[0]] is the longitude, [pt[1]] the
    latitude. *)
Definition point : Type := coord * coord.

(** [geodesic(pt, ...)]: the tuple is passed as it is, so geopy reads
    [pt[0]] as the latitude. *)
Definition as_passed (pt : point) : LatLon :=
  {| lat := pt.1; lon := pt.2 |}.

(** [geodesic((pt[1], pt[0]), ...)]: the explicit reordering. *)
Definition reordered (pt : point) : LatLon :=
  {| lat := pt.2; lon := pt.1 |}.

End Geo.

Arguments LatLon : clear implicits.
Arguments point : clear implicits.

(** ** heapq (CPython, Lib/heapq.py), over any item type with [<]

    The open list is a Python list handled by [heapq.heappush] and
    [heapq.heappop].  The two sift loops are transcribed with the library's
    variable names; [lt a b] is [a < b], that is [a.__lt__(b)].  The loops
    are bounded by a fuel that the callers set to a value the loop cannot
    exhaust (see [_siftdown_loop_fuel] and [_siftup_loop_fuel]). *)

Section Heapq.
Context {A : Type}.
Variable lt : A → A → bool.

Fixpoint _siftdown_loop (fuel : nat) (heap : list A) (startpos : nat)
    (newitem : A) (pos : nat) : list A :=
  match fuel with
  | O => <[pos := newitem]> heap
  | S fuel' =>
      if decide (startpos < pos) then
        let parentpos := (pos - 1) / 2 in
        match heap !! parentpos with
        | Some parent =>
            if lt newitem parent
            then _siftdown_loop fuel' (<[pos := parent]> heap) startpos
                                newitem parentpos
            else <[pos := newitem]> heap
        | None => <[pos := newitem]> heap
        end
      else <[pos := newitem]> heap
  end.

Definition _siftdown (heap : list A) (startpos pos : nat) : list A :=
  match heap !! pos with
  | Some newitem => _siftdown_loop pos heap startpos newitem pos
  | None => heap
  end.

(** The [while childpos < endpos] loop of [_siftup]: returns the heap and
    the leaf position reached. *)
Fixpoint _siftup_loop (fuel : nat) (heap : list A) (endpos pos : nat)
    : list A * nat :=
  match fuel with
  | O => (heap, pos)
  | S fuel' =>
      let childpos := 2 * pos + 1 in
      if decide (childpos < endpos) then
        let rightpos := childpos + 1 in
        let childpos :=
          match heap !! childpos, heap !! rightpos with
          | Some lchild, Some rchild =>
              if bool_decide (rightpos < endpos) && negb (lt lchild rchild)
              then rightpos else childpos
          | _, _ => childpos
          end in
        match heap !! childpos with
        | Some child =>
            _siftup_loop fuel' (<[pos := child]> heap) endpos childpos
        | None => (heap, pos)
        end
      else (heap, pos)
  end.

Definition _siftup (heap : list A) (pos : nat) : list A :=
  match heap !! pos with
  | Some newitem =>
      let endpos := length heap in
      let startpos := pos in
      let '(heap, pos) := _siftup_loop endpos heap endpos pos in
      _siftdown (<[pos := newitem]> heap) startpos pos
  | None => heap
  end.

Definition heappush (heap : list A) (item : A) : list A :=
  _siftdown (heap ++ [item]) 0 (length (heap ++ [item]) - 1).

(** [heappop] returns the popped item and the heap left; [None] stands for
    the IndexError on an empty heap. *)
Definition heappop (heap : list A) : option (A * list A) :=
  match last heap with
  | None => None
  | Some lastelt =>
      let heap := removelast heap in
      match heap with
      | [] => Some (lastelt, heap)
      | returnitem :: _ =>
          Some (returnitem, _siftup (<[0 := lastelt]> heap) 0)
      end
  end.

End Heapq.

(** ** Lanes, the cost model and the search *)

Section Planner.
Context {coord : Type} `{Countable coord}.
Variable geodesic : LatLon coord → LatLon coord → float.

(** [class LaneNode]; [parent] refers to another lane object by its key. *)
Record LaneNode := mkLaneNode {
  path_id : Z;
  start : point coord;
  end_ : point coord;
  center : list (point coord);
  g : float;
  h : float;
  f : float;
  parent : option Z
}.

(** [LaneNode.__init__] *)
Definition LaneNode_init (path_id : Z) (start end_ : point coord)
    (center : list (point coord)) : LaneNode :=
  {| path_id := path_id; start := start; end_ := end_; center := center;
     g := infinity; h := 0; f := 0; parent := None |}.

(** Assignment to the four search fields of a lane object. *)
Definition set_search (lane : LaneNode) (g' h' f' : float)
    (parent' : option Z) : LaneNode :=
  {| path_id := path_id lane; start := start lane; end_ := end_ lane;
     center := center lane; g := g'; h := h'; f := f'; parent := parent' |}.

Definition heuristic (a b : LaneNode) : float :=
  geodesic (as_passed (end_ a)) (as_passed (start b)).

Definition lane_length (lane : LaneNode) : float :=
  let pts := center lane in
  if decide (length pts < 2) then
    geodesic (reordered (start lane)) (reordered (end_ lane))
  else
    fold_left
      (λ total i,
         match pts !! (i - 1), pts !! i with
         | Some p, Some q =>
             (total + geodesic (reordered p) (reordered q))%float
         | _, _ => total
         end)
      (seq 1 (length pts - 1)) 0%float.

(** *** load_lane_graph

    A record of the [lanes] array of the JSON document. *)
Record LaneRecord := mkLaneRecord {
  rec_path_id : Z;
  rec_start : point coord;
  rec_end : point coord;
  rec_center : list (point coord);
  rec_connected_to : list Z
}.

(** The [lanes] dictionary: its entries, and its keys in insertion order
    (the order in which [lanes.values()] yields the lane objects). *)
Record LaneDict := mkLaneDict {
  entries : gmap Z LaneNode;
  keys : list Z
}.

Definition dict_set (d : LaneDict) (k : Z) (v : LaneNode) : LaneDict :=
  {| entries := <[k := v]> (entries d);
     keys := if decide (k ∈ keys d) then keys d else keys d ++ [k] |}.

Definition load_lane_step (acc : LaneDict * gmap Z (list Z))
    (lane : LaneRecord) : LaneDict * gmap Z (list Z) :=
  let '(lanes, graph) := acc in
  let path_id := rec_path_id lane in
  let node := LaneNode_init path_id (rec_start lane) (rec_end lane)
                            (rec_center lane) in
  let valid_connections :=
    filter (λ conn, conn ≠ (-1)%Z) (rec_connected_to lane) in
  (dict_set lanes path_id node,
   fold_left
     (λ graph connection,
        <[path_id := default [] (graph !! path_id) ++ [connection]]> graph)
     valid_connections graph).

Definition load_lane_graph (lanes_data : list LaneRecord)
    : LaneDict * gmap Z (list Z) :=
  fold_left load_lane_step lanes_data
            ({| entries := ∅; keys := [] |}, ∅).

(** *** find_closest_lane_node

    The loop state is [(closest_lane, min_distance)]. *)
Definition closest_point_step (gps_point : point coord) (lane : Z)
    (acc : option Z * float) (pt : point coord) : option Z * float :=
  let d := geodesic (reordered gps_point) (reordered pt) in
  if PrimFloat.ltb d acc.2 then (Some lane, d) else acc.

Definition find_closest_lane_node (lanes : LaneDict)
    (gps_point : point coord) : option Z :=
  (fold_left
     (λ acc k,
        match entries lanes !! k with
        | Some lane =>
            fold_left (closest_point_step gps_point k) (center lane) acc
        | None => acc
        end)
     (keys lanes) (None, infinity)).1.

(** *** a_star_lane_level *)

(** [rospy.logwarn(f"Lane ID {neighbor_id} not found.")] *)
Inductive log_entry := WarnLaneNotFound (neighbor_id : Z).

Record SearchState := mkSearchState {
  lanes : gmap Z LaneNode;
  open_list : list Z;
  closed_set : gset Z;
  log : list log_entry
}.

(** [a < b] on lane objects is [a.f < b.f], read from the objects as they
    are when the comparison is made.  (A key that names no lane object does
    not occur in the open list, see [search_wf]; it reads as 0.) *)
Definition lane_f (lanes : gmap Z LaneNode) (k : Z) : float :=
  match lanes !! k with Some lane => f lane | None => 0%float end.

Definition lane_lt (lanes : gmap Z LaneNode) (a b : Z) : bool :=
  PrimFloat.ltb (lane_f lanes a) (lane_f lanes b).

(** [rospy.logwarn(...)]: only the log changes. *)
Definition logwarn_lane_not_found (st : SearchState) (neighbor_id : Z)
    : SearchState :=
  {| lanes := lanes st; open_list := open_list st;
     closed_set := closed_set st;
     log := log st ++ [WarnLaneNotFound neighbor_id] |}.

(** The body of [for neighbor_id in graph.get(current.path_id, [])].  The
    last case of the inner [match] does not arise: [current] and the goal
    lane are lane objects. *)
Definition expand_neighbor (goal_lane current : Z) (st : SearchState)
    (neighbor_id : Z) : SearchState :=
  if decide (neighbor_id ∈ closed_set st) then st
  else
    match lanes st !! neighbor_id with
    | None => logwarn_lane_not_found st neighbor_id
    | Some neighbor =>
        match lanes st !! current, lanes st !! goal_lane with
        | Some cur, Some goal =>
            let travel_cost := lane_length neighbor in
            let tentative_g := (g cur + travel_cost)%float in
            if PrimFloat.ltb tentative_g (g neighbor) then
              let h' := heuristic neighbor goal in
              let lanes' :=
                <[neighbor_id :=
                    set_search neighbor tentative_g h' (tentative_g + h')%float
                               (Some current)]> (lanes st) in
              {| lanes := lanes';
                 open_list := heappush (lane_lt lanes') (open_list st)
                                       neighbor_id;
                 closed_set := closed_set st; log := log st |}
            else st
        | _, _ => st
        end
    end.

(** [while current: path.append(current); current = current.parent]; a
    lane object is always true, and the loop ends at the parent [None]. *)
Fixpoint build_path (fuel : nat) (lanes : gmap Z LaneNode)
    (current : option Z) (path : list Z) : option (list Z) :=
  match current with
  | None => Some path
  | Some k =>
      match fuel with
      | O => None
      | S fuel' =>
          match lanes !! k with
          | Some lane => build_path fuel' lanes (parent lane) (path ++ [k])
          | None => None
          end
      end
  end.

(** How a call ends: it returns ([None] or a lane path, and the lane
    objects as the search left them), or the model's fuel ran out, or a
    reference named no lane object. *)
Inductive outcome :=
  | Returned (path : option (list Z)) (st : SearchState)
  | OutOfFuel
  | BadReference.

(** The state once [current] is popped and its identifier is in
    [closed_set]. *)
Definition close_current (st : SearchState) (current : Z)
    (open_list' : list Z) : SearchState :=
  {| lanes := lanes st; open_list := open_list';
     closed_set := {[current]} ∪ closed_set st; log := log st |}.

(** One iteration of [while open_list]: either the call returns, or the
    loop goes on from the state given. *)
Definition a_star_step (graph : gmap Z (list Z)) (goal_lane : Z)
    (st : SearchState) : outcome + SearchState :=
  match heappop (lane_lt (lanes st)) (open_list st) with
  | None => inl (Returned None st)
  | Some (current, open_list') =>
      let st := close_current st current open_list' in
      if decide (current = goal_lane) then
        match build_path (S (size (lanes st))) (lanes st) (Some current) []
        with
        | Some path => inl (Returned (Some (reverse path)) st)
        | None => inl OutOfFuel
        end
      else
        inr (fold_left (expand_neighbor goal_lane current)
                       (default [] (graph !! current)) st)
  end.

Fixpoint a_star_loop (fuel : nat) (graph : gmap Z (list Z)) (goal_lane : Z)
    (st : SearchState) : outcome :=
  match fuel with
  | O => OutOfFuel
  | S fuel' =>
      match a_star_step graph goal_lane st with
      | inl result => result
      | inr st' => a_star_loop fuel' graph goal_lane st'
      end
  end.

(** The state in which the [while] loop is entered. *)
Definition a_star_init (lanes : gmap Z LaneNode) (start_lane goal_lane : Z)
    : option SearchState :=
  match lanes !! start_lane, lanes !! goal_lane with
  | Some s, Some goal =>
      let lanes :=
        <[start_lane := set_search s 0 (h s) (heuristic s goal) (parent s)]>
          lanes in
      Some {| lanes := lanes;
              open_list := heappush (lane_lt lanes) [] start_lane;
              closed_set := ∅; log := [] |}
  | _, _ => None
  end.

Definition a_star_lane_level (fuel : nat) (graph : gmap Z (list Z))
    (lanes : gmap Z LaneNode) (start_lane goal_lane : Z) : outcome :=
  match a_star_init lanes start_lane goal_lane with
  | Some st => a_star_loop fuel graph goal_lane st
  | None => BadReference
  end.

(** The state at the head of the loop after [n] full iterations, if the
    call has not returned before. *)
Fixpoint state_at_iteration (n : nat) (graph : gmap Z (list Z))
    (goal_lane : Z) (st : SearchState) : option SearchState :=
  match n with
  | O => Some st
  | S n' =>
      match a_star_step graph goal_lane st with
      | inl _ => None
      | inr st' => state_at_iteration n' graph goal_lane st'
      end
  end.

(** *** extract_centerline_path *)
Definition extract_centerline_path (lanes : gmap Z LaneNode)
    (lane_path : list Z) : list (point coord) :=
  fold_left
    (λ composite k,
       match lanes !! k with
       | Some lane => composite ++ center lane
       | None => composite
       end)
    lane_path [].

(** *** truncate_goal_lane *)

(** The list [cumulative] after the first loop. *)
Definition cumulative_distances (goal_lane_center : list (point coord))
    : list float :=
  fold_left
    (λ cumulative i,
       match goal_lane_center !! (i - 1), goal_lane_center !! i,
             last cumulative with
       | Some p, Some q, Some c =>
           cumulative ++ [(c + geodesic (reordered p) (reordered q))%float]
       | _, _, _ => cumulative
       end)
    (seq 1 (length goal_lane_center - 1)) [0%float].

(** [for i, pt in enumerate(goal_lane_center)] with its [break]; [pts] is
    what is left to enumerate and [i] the index of its head.  [cumulative]
    has an entry for every index, so that its lookup does not fail. *)
Fixpoint find_candidate (cumulative : list float) (total_length : float)
    (goal_gps : point coord) (min_fraction threshold : float)
    (i : nat) (pts : list (point coord)) : option nat :=
  match pts with
  | [] => None
  | pt :: pts' =>
      match cumulative !! i with
      | Some c =>
          let fraction := (c / total_length)%float in
          let dist_to_goal := geodesic (reordered goal_gps) (reordered pt) in
          if PrimFloat.leb min_fraction fraction
             && PrimFloat.ltb dist_to_goal threshold
          then Some i
          else find_candidate cumulative total_length goal_gps min_fraction
                              threshold (S i) pts'
      | None => None
      end
  end.

Definition truncate_goal_lane (goal_lane_center : list (point coord))
    (goal_gps : point coord) (min_fraction threshold : float)
    : list (point coord) :=
  let n := length goal_lane_center in
  if decide (n = 0) then [goal_gps]
  else
    let cumulative := cumulative_distances goal_lane_center in
    let total_length := default 0%float (last cumulative) in
    if PrimFloat.eqb total_length 0 then [goal_gps]
    else
      let candidate_idx :=
        default (n - 1)
          (find_candidate cumulative total_length goal_gps min_fraction
                          threshold 0 goal_lane_center) in
      let truncated := take (candidate_idx + 1) goal_lane_center in
      <[length truncated - 1 := goal_gps]> truncated.

(** *** remove_cycles_from_path

    One iteration of [for pt in path]; the state is [(seen, new_path)]. *)
Definition remove_cycles_step
    (acc : gmap (point coord) nat * list (point coord)) (pt : point coord)
    : gmap (point coord) nat * list (point coord) :=
  let '(seen, new_path) := acc in
  match seen !! pt with
  | Some idx => (seen, take (idx + 1) new_path)
  | None => (<[pt := length new_path]> seen, new_path ++ [pt])
  end.

Definition remove_cycles_from_path (path : list (point coord))
    : list (point coord) :=
  (fold_left remove_cycles_step path (∅, [])).2.

(** *** AStarPlannerNode *)

Definition reset_lane_states (lanes : gmap Z LaneNode) : gmap Z LaneNode :=
  (λ lane, set_search lane infinity 0 0 None) <$> lanes.

(** What [try_compute_path] does with a lane path found: lines 262-269,
    the list handed to [path_publisher]. *)
Definition assemble_centerline (lanes : gmap Z LaneNode)
    (lane_path : list Z) (goal_lane_center : list (point coord))
    (goal_gps : point coord) : list (point coord) :=
  let composite_centerline :=
    extract_centerline_path lanes (removelast lane_path) in
  let truncated_goal_segment :=
    truncate_goal_lane goal_lane_center goal_gps
                       0x1.999999999999ap-4%float 5%float in
  remove_cycles_from_path (composite_centerline ++ truncated_goal_segment).

(** What one call publishes on [/computed_path]: a path, or nothing;
    [NoReturn] when the search did not return within the fuel given. *)
Inductive published :=
  | Path (final_centerline : list (point coord))
  | Nothing
  | NoReturn.

Definition try_compute_path (fuel : nat) (lane_dict : LaneDict)
    (graph : gmap Z (list Z)) (start_gps goal_gps : option (point coord))
    : published :=
  match start_gps, goal_gps with
  | Some start_gps, Some goal_gps =>
      let lane_dict :=
        {| entries := reset_lane_states (entries lane_dict);
           keys := keys lane_dict |} in
      match find_closest_lane_node lane_dict start_gps,
            find_closest_lane_node lane_dict goal_gps with
      | Some start_lane, Some goal_lane =>
          match a_star_lane_level fuel graph (entries lane_dict) start_lane
                                  goal_lane with
          | Returned (Some ((_ :: _) as lane_path)) st =>
              match lanes st !! goal_lane with
              | Some goal => Path (assemble_centerline (lanes st) lane_path
                                                       (center goal) goal_gps)
              | None => NoReturn
              end
          | Returned (Some []) _ | Returned None _ => Nothing
          | OutOfFuel | BadReference => NoReturn
          end
      | _, _ => Nothing
      end
  | _, _ => Nothing
  end.

End Planner.


(** ** The calls of [geodesic] that raise

    geopy makes a [Point] of each of the two arguments of [geodesic] and
    raises [ValueError] when it does not accept one (geopy 2: a latitude
    outside [-90, 90]).  The definitions above describe the calls in which
    nothing is raised.  [Checked] gives [a_star_lane_level] and the
    functions it calls with that exception: [accepts p] says that geopy
    accepts the point [p], and a function raises where one of its calls of
    [geodesic] does. *)

Inductive exception := ValueError.

Inductive result (A : Type) :=
  | Ok (value : A)
  | Raise (e : exception).
Arguments Ok {A} value.
Arguments Raise {A} e.

#[global] Instance result_ret : MRet result := @Ok.
#[global] Instance result_bind : MBind result :=
  λ A B f r, match r with Ok a => f a | Raise e => Raise e end.

Module Checked.
Section Checked.
Context {coord : Type} `{Countable coord}.
Variable geodesic : LatLon coord → LatLon coord → float.
Variable accepts : LatLon coord → bool.

(** [geodesic(p, q).meters] *)
Definition geodesic_meters (p q : LatLon coord) : result float :=
  if accepts p && accepts q then Ok (geodesic p q) else Raise ValueError.

Definition heuristic (a b : @LaneNode coord) : result float :=
  geodesic_meters (as_passed (end_ a)) (as_passed (start b)).

Definition lane_length (lane : @LaneNode coord) : result float :=
  let pts := center lane in
  if decide (length pts < 2) then
    geodesic_meters (reordered (start lane)) (reordered (end_ lane))
  else
    fold_left
      (λ total i,
         match pts !! (i - 1), pts !! i with
         | Some p, Some q =>
             total ← total;
             d ← geodesic_meters (reordered p) (reordered q);
             Ok (total + d)%float
         | _, _ => total
         end)
      (seq 1 (length pts - 1)) (Ok 0%float).

(** The body of [for neighbor_id in graph.get(current.path_id, [])]:
    [lane_length(neighbor)] is called for every successor that is a lane
    object and not closed, [heuristic(neighbor, goal_lane)] when the cost
    is lowered. *)
Definition expand_neighbor (goal_lane current : Z) (st : @SearchState coord)
    (neighbor_id : Z) : result (@SearchState coord) :=
  if decide (neighbor_id ∈ closed_set st) then Ok st
  else
    match lanes st !! neighbor_id with
    | None => Ok (logwarn_lane_not_found st neighbor_id)
    | Some neighbor =>
        match lanes st !! current, lanes st !! goal_lane with
        | Some cur, Some goal =>
            travel_cost ← lane_length neighbor;
            let tentative_g := (g cur + travel_cost)%float in
            if PrimFloat.ltb tentative_g (g neighbor) then
              h' ← heuristic neighbor goal;
              let lanes' :=
                <[neighbor_id :=
                    set_search neighbor tentative_g h' (tentative_g + h')%float
                               (Some current)]> (lanes st) in
              Ok {| lanes := lanes';
                    open_list := heappush (lane_lt lanes') (open_list st)
                                          neighbor_id;
                    closed_set := closed_set st; log := log st |}
            else Ok st
        | _, _ => Ok st
        end
    end.

(** The [for] loop: an exception ends it. *)
Definition expand_neighbors (goal_lane current : Z) (neighbors : list Z)
    (st : @SearchState coord) : result (@SearchState coord) :=
  fold_left (λ acc neighbor_id,
               st ← acc; expand_neighbor goal_lane current st neighbor_id)
            neighbors (Ok st).

Definition a_star_step (graph : gmap Z (list Z)) (goal_lane : Z)
    (st : @SearchState coord)
    : result (@outcome coord + @SearchState coord) :=
  match heappop (lane_lt (lanes st)) (open_list st) with
  | None => Ok (inl (Returned None st))
  | Some (current, open_list') =>
      let st := close_current st current open_list' in
      if decide (current = goal_lane) then
        match build_path (S (size (lanes st))) (lanes st) (Some current) []
        with
        | Some path => Ok (inl (Returned (Some (reverse path)) st))
        | None => Ok (inl OutOfFuel)
        end
      else
        st' ← expand_neighbors goal_lane current
                               (default [] (graph !! current)) st;
        Ok (inr st')
  end.

Fixpoint a_star_loop (fuel : nat) (graph : gmap Z (list Z)) (goal_lane : Z)
    (st : @SearchState coord) : result (@outcome coord) :=
  match fuel with
  | O => Ok OutOfFuel
  | S fuel' =>
      step ← a_star_step graph goal_lane st;
      match step with
      | inl ended => Ok ended
      | inr st' => a_star_loop fuel' graph goal_lane st'
      end
  end.

(** The state in which the [while] loop is entered;
    [heuristic(start_lane, goal_lane)] is called first. *)
Definition a_star_init (lanes : gmap Z (@LaneNode coord))
    (start_lane goal_lane : Z) : result (option (@SearchState coord)) :=
  match lanes !! start_lane, lanes !! goal_lane with
  | Some s, Some goal =>
      f' ← heuristic s goal;
      let lanes := <[start_lane := set_search s 0 (h s) f' (parent s)]> lanes in
      Ok (Some {| lanes := lanes;
                  open_list := heappush (lane_lt lanes) [] start_lane;
                  closed_set := ∅; log := [] |})
  | _, _ => Ok None
  end.

Definition a_star_lane_level (fuel : nat) (graph : gmap Z (list Z))
    (lanes : gmap Z (@LaneNode coord)) (start_lane goal_lane : Z)
    : result (@outcome coord) :=
  init ← a_star_init lanes start_lane goal_lane;
  match init with
  | Some st => a_star_loop fuel graph goal_lane st
  | None => Ok BadReference
  end.

End Checked.
End Checked.


(** * Part II. The vocabulary of the properties

    What the properties speak of: the sum of consecutive distances, arc
    length, the index that can be selected, well-formed search states,
    connected lane sequences, and the conditions on the heuristic. *)

Section Vocabulary.
Context {coord : Type} `{Countable coord}.
Variable geodesic : LatLon coord → LatLon coord → float.
Implicit Types (pts : list (point coord)) (lane : @LaneNode coord).
Implicit Types (st : @SearchState coord).

(** The loop invariant: the output has no repetition, every output point
    is a key of [seen], and the output is no longer than what was read. *)
Definition cycles_inv (read : nat)
    (acc : gmap (point coord) nat * list (point coord)) : Prop :=
  NoDup acc.2 ∧ (∀ pt, pt ∈ acc.2 → is_Some (acc.1 !! pt))
  ∧ length acc.2 ≤ read.

(** The geodesic distances between consecutive points. *)
Definition segment_lengths pts : list float :=
  zip_with (λ p q, geodesic (reordered p) (reordered q)) pts (tail pts).

(** A sum of floats, taken from the left, starting at [0.0]. *)
Definition sum_floats (ds : list float) : float :=
  fold_left PrimFloat.add ds 0%float.

(** [edge_cost(lane)] *)
Definition edge_cost lane : float :=
  if decide (length (center lane) < 2)
  then geodesic (reordered (start lane)) (reordered (end_ lane))
  else sum_floats (segment_lengths (center lane)).

(** Arc length up to index [i], and of the whole centerline. *)
Definition arc_length pts (i : nat) : float :=
  sum_floats (take i (segment_lengths pts)).

Definition total_arc_length pts : float := sum_floats (segment_lengths pts).

(** Index [i] can be selected: its arc-length fraction is at least
    [min_fraction] and its point is closer than [threshold] to the goal. *)
Definition qualifies pts (goal_gps : point coord)
    (min_fraction threshold : float) (i : nat) : bool :=
  match pts !! i with
  | Some pt =>
      PrimFloat.leb min_fraction
                    (arc_length pts i / total_arc_length pts)%float
      && PrimFloat.ltb (geodesic (reordered goal_gps) (reordered pt))
                       threshold
  | None => false
  end.

(** Every identifier in the open list or in [closed_set] names a lane
    object. *)
Definition search_wf st : Prop :=
  closed_set st ⊆ dom (lanes st)
  ∧ ∀ k, k ∈ open_list st → k ∈ dom (lanes st).

(** Every lane of the sequence but the first is listed as a successor of
    the lane before it; [connected_from graph a path] says so of
    [a :: path]. *)
Fixpoint connected_from (graph : gmap Z (list Z)) (a : Z) (path : list Z)
    : bool :=
  match path with
  | [] => true
  | b :: rest =>
      bool_decide (b ∈ default [] (graph !! a)) && connected_from graph b rest
  end.

Definition successor_connected (graph : gmap Z (list Z)) (path : list Z)
    : bool :=
  match path with
  | [] => true
  | a :: rest => connected_from graph a rest
  end.

(** The total centerline length of a lane sequence. *)
Definition total_centerline_length (lanes : gmap Z (@LaneNode coord))
    (path : list Z) : float :=
  sum_floats
    ((λ k, from_option (lane_length geodesic) 0%float (lanes !! k)) <$> path).

(** No lane has a negative length. *)
Definition lane_lengths_nonneg (lanes : gmap Z (@LaneNode coord)) : bool :=
  forallb (λ kl, PrimFloat.leb 0 (lane_length geodesic kl.2))
          (map_to_list lanes).

(** Consistency: along every edge [a → b] the estimate at [a] is at most the
    cost charged for entering [b] plus the estimate at [b]; and the
    estimate at the goal lane is zero. *)
Definition heuristic_consistent (graph : gmap Z (list Z))
    (lanes : gmap Z (@LaneNode coord)) (goal : @LaneNode coord) : bool :=
  PrimFloat.eqb (heuristic geodesic goal goal) 0
  && forallb
       (λ al,
          forallb
            (λ k,
               match lanes !! k with
               | Some b =>
                   PrimFloat.leb (heuristic geodesic al.2 goal)
                     (lane_length geodesic b + heuristic geodesic b goal)%float
               | None => true
               end)
            (default [] (graph !! al.1)))
       (map_to_list lanes).

(** Admissibility: the estimate at a lane is at most the cost the search
    charges along any successor-connected sequence from that lane to the
    goal lane, the lengths of the lanes after the first. *)
Definition heuristic_admissible (graph : gmap Z (list Z))
    (lanes : gmap Z (@LaneNode coord)) (goal_lane : Z)
    (goal : @LaneNode coord) : Prop :=
  ∀ k lane path,
    lanes !! k = Some lane →
    successor_connected graph (k :: path) = true →
    last (k :: path) = Some goal_lane →
    PrimFloat.leb (heuristic geodesic lane goal)
                  (total_centerline_length lanes path) = true.

End Vocabulary.

(** ** The vocabulary of the further properties *)

Section MoreVocabulary.
Context {coord : Type} `{Countable coord}.
Variable geodesic : LatLon coord → LatLon coord → float.

(** The lane object [load_lane_graph] makes of a record. *)
Definition lane_of_record (r : @LaneRecord coord) : @LaneNode coord :=
  LaneNode_init (rec_path_id r) (rec_start r) (rec_end r) (rec_center r).

(** The records of the document with [path_id = k], in document order. *)
Definition records_of (lanes_data : list (@LaneRecord coord)) (k : Z)
    : list (@LaneRecord coord) :=
  filter (λ r, rec_path_id r = k) lanes_data.

(** The successors the document lists for [k], without the sentinel -1, in
    document order. *)
Definition listed_successors (lanes_data : list (@LaneRecord coord)) (k : Z)
    : list Z :=
  mjoin ((λ r, filter (λ conn, conn ≠ (-1)%Z) (rec_connected_to r))
           <$> records_of lanes_data k).

(** The centerline points of the dictionary, each with the key of its
    lane, in the order in which [find_closest_lane_node] visits them. *)
Definition centerline_points (lanes : @LaneDict coord)
    : list (Z * point coord) :=
  keys lanes ≫= λ k,
    match entries lanes !! k with
    | Some lane => (k,.) <$> center lane
    | None => []
    end.

(** The invariant of the two loops of [find_closest_lane_node], with
    [visited] the points visited so far: no visited point is closer than
    [min_distance]; [min_distance] is infinity until a lane is chosen, and
    from then on it is below infinity and the distance of a visited point
    of the lane chosen. *)
Definition closest_inv (gps_point : point coord)
    (visited : list (Z * point coord)) (acc : option Z * float) : Prop :=
  (∀ kp, kp ∈ visited →
         PrimFloat.ltb (geodesic (reordered gps_point) (reordered kp.2)) acc.2
         = false)
  ∧ match acc.1 with
    | None => acc.2 = infinity
    | Some k =>
        PrimFloat.ltb acc.2 infinity = true
        ∧ ∃ pt, (k, pt) ∈ visited
              ∧ acc.2 = geodesic (reordered gps_point) (reordered pt)
    end.

(** [parent_chain lanes start_lane k path]: following the parent links
    from lane [k] leads to the start lane, whose parent is [None], and
    [path] lists the lanes met, from the start lane to [k]. *)
Inductive parent_chain (lanes : gmap Z (@LaneNode coord)) (start_lane : Z)
    : Z → list Z → Prop :=
  | parent_chain_start s :
      lanes !! start_lane = Some s → parent s = None →
      parent_chain lanes start_lane start_lane [start_lane]
  | parent_chain_step k lane p path :
      lanes !! k = Some lane → parent lane = Some p →
      parent_chain lanes start_lane p path →
      parent_chain lanes start_lane k (path ++ [k]).

(** Lane [k] is reached along [path]: [path] is its parent chain, it
    passes no lane twice, each of its lanes is a listed successor of the
    one before, all its lanes but [k] are closed, and [k.g] is the sum of
    the lengths of the lanes after the first. *)
Definition reached (graph : gmap Z (list Z)) (start_lane : Z)
    (st : @SearchState coord) (k : Z) (path : list Z) : Prop :=
  parent_chain (lanes st) start_lane k path
  ∧ NoDup path
  ∧ successor_connected graph path = true
  ∧ (∀ x, x ∈ path → x ≠ k → x ∈ closed_set st)
  ∧ g <$> lanes st !! k
    = Some (total_centerline_length geodesic (lanes st) (tail path)).

(** The invariant of the search loop: the state is well formed, the goal
    lane is a lane object, and every lane in the open list or closed is
    reached along some path. *)
Definition search_inv (graph : gmap Z (list Z)) (start_lane goal_lane : Z)
    (st : @SearchState coord) : Prop :=
  search_wf st
  ∧ is_Some (lanes st !! goal_lane)
  ∧ ∀ k, k ∈ open_list st ∨ k ∈ closed_set st →
         ∃ path, reached graph start_lane st k path.

(** What the search leaves alone in a lane object. *)
Definition geometry (lane : @LaneNode coord)
    : Z * point coord * point coord * list (point coord) :=
  (path_id lane, start lane, end_ lane, center lane).

(** Lane [c] cannot improve its successor [n]: [n] is closed, or names no
    lane object, or [c.g] plus the length of [n] is not below [n.g]. *)
Definition relaxed_pair (st : @SearchState coord) (c n : Z) : Prop :=
  n ∈ closed_set st ∨ lanes st !! n = None
  ∨ ∃ cur nb, lanes st !! c = Some cur ∧ lanes st !! n = Some nb
      ∧ PrimFloat.ltb (g cur + lane_length geodesic nb) (g nb) = false.

(** No closed lane can improve a successor. *)
Definition relaxed (graph : gmap Z (list Z)) (st : @SearchState coord)
    : Prop :=
  ∀ c n, c ∈ closed_set st → n ∈ default [] (graph !! c) →
         relaxed_pair st c n.

(** The same while the successors of [current] are gone through, of which
    [handled] are dealt with. *)
Definition relaxed_but (graph : gmap Z (list Z)) (st : @SearchState coord)
    (current : Z) (handled : list Z) : Prop :=
  ∀ c n, c ∈ closed_set st → n ∈ default [] (graph !! c) →
         c ≠ current ∨ n ∈ handled → relaxed_pair st c n.

(** The number of entries of [graph.get(c, [])]. *)
Definition successor_count (graph : gmap Z (list Z)) (c : Z) : nat :=
  length (default [] (graph !! c)).

(** The successor entries of the lanes [keys] that are not closed. *)
Definition pending (graph : gmap Z (list Z)) (closed : gset Z)
    (keys : list Z) : nat :=
  sum_list ((λ c, if decide (c ∈ closed) then 0
                  else successor_count graph c) <$> keys).

(** A bound on the iterations left: the entries of the open list, and the
    successor entries of the lanes not closed yet. *)
Definition work_left (graph : gmap Z (list Z)) (st : @SearchState coord)
    : nat :=
  length (open_list st)
  + pending graph (closed_set st) (elements (dom (lanes st))).

(** The successor entries of all lane objects. *)
Definition successor_entries (graph : gmap Z (list Z))
    (lanes : gmap Z (@LaneNode coord)) : nat :=
  sum_list (successor_count graph <$> elements (dom lanes)).

End MoreVocabulary.

Section CheckedVocabulary.
Context {coord : Type} `{Countable coord}.
Variable accepts : LatLon coord → bool.

(** geopy accepts every point of the lane in each order in which the
    program passes it: start and end point as [heuristic] passes them and
    as [lane_length] passes them, the centerline points as [lane_length]
    passes them. *)
Definition lane_accepted (lane : @LaneNode coord) : Prop :=
  accepts (as_passed (start lane)) = true
  ∧ accepts (as_passed (end_ lane)) = true
  ∧ accepts (reordered (start lane)) = true
  ∧ accepts (reordered (end_ lane)) = true
  ∧ Forall (λ p, accepts (reordered p) = true) (center lane).

Definition map_accepted (lanes : gmap Z (@LaneNode coord)) : Prop :=
  ∀ k lane, lanes !! k = Some lane → lane_accepted lane.

End CheckedVocabulary.

(** * Part III. Sample maps

    Integer coordinates (JSON integers), and a flat stand-in for the
    geodesic: distance along a grid on which a unit of latitude is twice as
    long as a unit of longitude, as it is near 60 degrees north.  For two
    points on the diagonal [lon = lat] it is three times the difference, and
    the reordering of a point changes nothing. *)

Definition float_of_Z (z : Z) : float :=
  PrimFloat.of_uint63 (Uint63.of_Z z).

Definition grid_geodesic (p q : LatLon Z) : float :=
  float_of_Z (2 * Z.abs (lat p - lat q) + Z.abs (lon p - lon q)).

(** The point at [t] on the diagonal. *)
Definition diag (t : Z) : point Z := (t, t).

(** A goal-lane centerline: three points a unit apart, then the far end of
    the lane. *)
Definition long_centerline : list (point Z) :=
  [diag 0; diag 1; diag 2; diag 50].

(** Four points on the equator, as [(lon, lat)]. *)
Definition pA : point Z := (0, 0)%Z.
Definition pB : point Z := (1, 0)%Z.
Definition pC : point Z := (2, 0)%Z.
Definition pD : point Z := (3, 0)%Z.

(** Two lanes that end and start on the parallel of latitude 60, ten units
    of longitude apart, and the degenerate lane that joins them. *)
Definition lane_west : @LaneNode Z :=
  LaneNode_init 1 (0, 60)%Z (10, 60)%Z [(0, 60); (10, 60)]%Z.
Definition lane_east : @LaneNode Z :=
  LaneNode_init 2 (20, 60)%Z (30, 60)%Z [(20, 60); (30, 60)]%Z.
Definition lane_link : @LaneNode Z :=
  LaneNode_init 3 (end_ lane_west) (start lane_east) [].

(** A map of six lanes on the diagonal.  Lane 0 is the start lane and
    lane 5 the goal lane, a loop that ends where it starts.  Lane 4 leads
    to the goal lane at once, lanes 1 and 2 lead there by a shorter way,
    and lane 3 is a dead end. *)
Definition detour_map : list (@LaneRecord Z) :=
  [ mkLaneRecord 0%Z (diag 9) (diag 10) [diag 9; diag 10] [1; 4]%Z;
    mkLaneRecord 1%Z (diag 16) (diag 12) [diag 16; diag 12] [2]%Z;
    mkLaneRecord 2%Z (diag 14) (diag 10) [diag 14; diag 10] [5]%Z;
    mkLaneRecord 3%Z (diag 15) (diag 5) [diag 15; diag 5] [-1]%Z;
    mkLaneRecord 4%Z (diag 14) (diag 4) [diag 14; diag 4] [2; 3; 5]%Z;
    mkLaneRecord 5%Z (diag 0) (diag 0) [diag 0; diag 6; diag 0] [-1]%Z ].

Definition detour_lanes : gmap Z (@LaneNode Z) :=
  entries (load_lane_graph detour_map).1.

Definition detour_graph : gmap Z (list Z) := (load_lane_graph detour_map).2.

(** The goal lane of [detour_map]. *)
Definition detour_goal : @LaneNode Z :=
  LaneNode_init 5 (diag 0) (diag 0) [diag 0; diag 6; diag 0].

(** Scenario D: lane 0 lists the successor 99, which names no lane, and
    then lane 1, the goal lane. *)
Definition dangling_map : list (@LaneRecord Z) :=
  [ mkLaneRecord 0%Z (diag 0) (diag 1) [diag 0; diag 1] [99; 1]%Z;
    mkLaneRecord 1%Z (diag 1) (diag 2) [diag 1; diag 2] [-1]%Z ].

Definition dangling_lanes : gmap Z (@LaneNode Z) :=
  entries (load_lane_graph dangling_map).1.

Definition dangling_graph : gmap Z (list Z) :=
  (load_lane_graph dangling_map).2.

(** A route round a block.  Lane 1 runs from S through A to the
    crossing G; lane 2 leaves G, turns at X and comes back to A; lane 3
    runs from A to D; lane 4, the goal lane, runs from D to G.  Lane 4 is
    listed first in the document. *)
Definition at_S : point Z := (0, 0)%Z.
Definition at_A : point Z := (1, 0)%Z.
Definition at_G : point Z := (2, 0)%Z.
Definition at_X : point Z := (2, 1)%Z.
Definition at_D : point Z := (1, -1)%Z.

Definition crossing_map : list (@LaneRecord Z) :=
  [ mkLaneRecord 4%Z at_D at_G [at_D; at_G] [-1]%Z;
    mkLaneRecord 1%Z at_S at_G [at_S; at_A; at_G] [2]%Z;
    mkLaneRecord 2%Z at_G at_A [at_G; at_X; at_A] [3]%Z;
    mkLaneRecord 3%Z at_A at_D [at_A; at_D] [4]%Z ].

(** geopy 2 on integer coordinates: a point is accepted when its latitude
    lies in [-90, 90]. *)
Definition grid_accepts (p : LatLon Z) : bool :=
  bool_decide (-90 ≤ lat p ≤ 90)%Z.

(** Two lanes along the parallel of latitude 40, east of 90 degrees east. *)
Definition far_east_map : list (@LaneRecord Z) :=
  [ mkLaneRecord 0%Z (100, 40)%Z (101, 40)%Z [(100, 40); (101, 40)]%Z [1]%Z;
    mkLaneRecord 1%Z (101, 40)%Z (102, 40)%Z [(101, 40); (102, 40)]%Z
                 [-1]%Z ].

(** * Part IV. Properties *)

(** ** Loop removal *)

Section RemoveCyclesProperties.
Context {coord : Type} `{Countable coord}.
Implicit Types (pt : point coord) (path new_path : list (point coord)).
Implicit Types (seen : gmap (point coord) nat).

Lemma cycles_inv_step read acc pt :
  cycles_inv read acc → cycles_inv (S read) (remove_cycles_step acc pt).
Proof.
  destruct acc as [seen new_path]. intros (Hnd & Hkeys & Hlen).
  unfold remove_cycles_step. destruct (seen !! pt) as [idx|] eqn:Hpt.
  - repeat split; simpl in *.
    + rewrite <- (take_drop (idx + 1) new_path) in Hnd.
      by apply NoDup_app in Hnd as (? & _).
    + intros q Hq. apply Hkeys. by eapply subseteq_take.
    + rewrite length_take. lia.
  - repeat split; simpl in *.
    + apply NoDup_app. repeat split; [done | | apply NoDup_singleton].
      intros q Hq ->%list_elem_of_singleton.
      destruct (Hkeys _ Hq) as [? ?]. congruence.
    + intros q [Hq | ->%list_elem_of_singleton]%elem_of_app.
      * destruct (decide (pt = q)) as [-> | Hne];
          [rewrite lookup_insert_eq | rewrite lookup_insert_ne]; eauto.
      * rewrite lookup_insert_eq; eauto.
    + rewrite length_app. simpl. lia.
Qed.

Lemma cycles_inv_fold path read acc :
  cycles_inv read acc →
  cycles_inv (length path + read) (fold_left remove_cycles_step path acc).
Proof.
  revert read acc. induction path as [|pt path IH]; intros read acc Hinv.
  - done.
  - simpl. replace (S (length path + read)) with (length path + S read) by lia.
    apply IH. by apply cycles_inv_step.
Qed.

(** A path without repetition only ever takes the [else] branch. *)
Lemma remove_cycles_fold_fresh path seen new_path :
  NoDup path → (∀ pt, pt ∈ path → seen !! pt = None) →
  (fold_left remove_cycles_step path (seen, new_path)).2 = new_path ++ path.
Proof.
  revert seen new_path.
  induction path as [|pt path IH]; intros seen new_path Hnd Hfresh.
  - simpl. by rewrite app_nil_r.
  - apply NoDup_cons in Hnd as [Hnotin Hnd]. simpl.
    rewrite (Hfresh pt) by apply list_elem_of_here.
    rewrite IH; [by rewrite <- app_assoc | done |].
    intros q Hq. rewrite lookup_insert_ne.
    + apply Hfresh. by apply list_elem_of_further.
    + intros ->. done.
Qed.

(** What the [if key in seen] branch does when the remembered index still
    holds the point: the output is cut back to end at that occurrence. *)
Lemma remove_cycles_step_live seen new_path pt idx :
  seen !! pt = Some idx → new_path !! idx = Some pt →
  ∃ loop, new_path = (remove_cycles_step (seen, new_path) pt).2 ++ loop
        ∧ last (remove_cycles_step (seen, new_path) pt).2 = Some pt.
Proof.
  intros Hseen Hidx. unfold remove_cycles_step. rewrite Hseen. simpl.
  exists (drop (idx + 1) new_path). split; [by rewrite take_drop|].
  replace (idx + 1) with (S idx) by lia.
  erewrite take_S_r by done. by rewrite last_snoc.
Qed.

(** The output is never empty when the input is not: the first point is
    appended, and a cut keeps index 0. *)
Lemma remove_cycles_fold_nonempty path acc :
  acc.2 ≠ [] → (fold_left remove_cycles_step path acc).2 ≠ [].
Proof.
  revert acc. induction path as [|pt path IH]; intros [seen new_path] Hne.
  - done.
  - simpl. apply IH. destruct (seen !! pt) as [idx|]; simpl in *.
    + destruct new_path; [done|]. by replace (idx + 1) with (S idx) by lia.
    + by destruct new_path.
Qed.

(** Only points that were read are keys of [seen]. *)
Lemma remove_cycles_fold_seen path acc pt :
  is_Some ((fold_left remove_cycles_step path acc).1 !! pt) →
  is_Some (acc.1 !! pt) ∨ pt ∈ path.
Proof.
  revert acc. induction path as [|q path IH]; intros [seen new_path]; simpl.
  - by left.
  - intros Hpt. apply IH in Hpt as [Hpt | Hpt].
    + destruct (seen !! q) as [idx|] eqn:Hq; simpl in Hpt; [by left|].
      destruct (decide (q = pt)) as [-> | Hne].
      * right. apply list_elem_of_here.
      * left. by rewrite lookup_insert_ne in Hpt.
    + right. by apply list_elem_of_further.
Qed.

(** A last point that did not occur before stays the last point. *)
Lemma remove_cycles_keeps_fresh_endpoint path pt :
  pt ∉ path → last (remove_cycles_from_path (path ++ [pt])) = Some pt.
Proof.
  intros Hfresh. unfold remove_cycles_from_path. rewrite fold_left_app.
  destruct (fold_left remove_cycles_step path (∅, [])) as [seen new_path]
    eqn:Hfold.
  simpl. destruct (seen !! pt) as [idx|] eqn:Hpt.
  - destruct (remove_cycles_fold_seen path (∅, []) pt) as [Hin | Hin].
    + rewrite Hfold. simpl. by rewrite Hpt.
    + simpl in Hin. rewrite lookup_empty in Hin. by destruct Hin.
    + done.
  - simpl. apply last_snoc.
Qed.

Lemma remove_cycles_nonempty path :
  path ≠ [] → remove_cycles_from_path path ≠ [].
Proof.
  destruct path as [|pt path]; [done|]. intros _.
  unfold remove_cycles_from_path. simpl. rewrite lookup_empty.
  by apply remove_cycles_fold_nonempty.
Qed.

(** C5: the output of [remove_cycles_from_path] has no two equal points,
    is never longer than the input, and is the input itself when the input
    has no two equal points. *)
Theorem remove_cycles_output_cycle_free path :
  NoDup (remove_cycles_from_path path)
  ∧ length (remove_cycles_from_path path) ≤ length path
  ∧ (NoDup path → remove_cycles_from_path path = path).
Proof.
  unfold remove_cycles_from_path.
  assert (cycles_inv 0 ((∅ : gmap (point coord) nat),
                        ([] : list (point coord))))
    as Hinit.
  { repeat split; simpl; [apply NoDup_nil_2 | | lia].
    intros pt Hpt. by apply elem_of_nil in Hpt. }
  apply (cycles_inv_fold path) in Hinit as (Hnd & _ & Hlen).
  repeat split; [done | lia |].
  intros Hpath. by apply (remove_cycles_fold_fresh path ∅ []).
Qed.

End RemoveCyclesProperties.

Lemma remove_cycles_output_cycle_free_witness :
  remove_cycles_from_path [pA; pB; pC] = [pA; pB; pC].
Proof.
  apply (remove_cycles_output_cycle_free [pA; pB; pC]).
  apply (bool_decide_unpack _). by vm_compute.
Defined.

(** C4, at the path [A, B, A, C, D, B]: when [B] comes up the second time
    the output so far is [A, C, D], which no longer holds [B]; [seen] still
    maps [B] to index 1, and the output is cut to [A, C]: [D] is lost and
    the output does not end at an occurrence of [B]. *)
Theorem remove_cycles_stale_index :
  let acc := fold_left remove_cycles_step [pA; pB; pA; pC; pD]
                       ((∅ : gmap (point Z) nat), []) in
  acc.2 = [pA; pC; pD] ∧ acc.1 !! pB = Some 1
  ∧ (remove_cycles_step acc pB).2 = [pA; pC]
  ∧ remove_cycles_from_path [pA; pB; pA; pC; pD; pB] = [pA; pC].
Proof. vm_compute. by repeat split. Qed.

(** ** The cost model and goal-lane truncation *)

Section CostModelProperties.
Context {coord : Type} `{Countable coord}.
Variable geodesic : LatLon coord → LatLon coord → float.
Implicit Types (pts : list (point coord)) (lane : @LaneNode coord).

Lemma length_segment_lengths pts :
  length (segment_lengths geodesic pts) = length pts - 1.
Proof.
  unfold segment_lengths. rewrite length_zip_with.
  destruct pts as [|pt pts]; [done|]. cbn [tail length]. lia.
Qed.

Lemma lookup_segment_lengths pts k p q :
  pts !! k = Some p → pts !! S k = Some q →
  segment_lengths geodesic pts !! k
  = Some (geodesic (reordered p) (reordered q)).
Proof.
  intros Hp Hq. unfold segment_lengths. rewrite lookup_zip_with, Hp. simpl.
  by rewrite lookup_tail, Hq.
Qed.

Lemma sum_floats_snoc ds d :
  sum_floats (ds ++ [d]) = (sum_floats ds + d)%float.
Proof. unfold sum_floats. by rewrite fold_left_app. Qed.

Lemma arc_length_S pts k p q :
  pts !! k = Some p → pts !! S k = Some q →
  arc_length geodesic pts (S k)
  = (arc_length geodesic pts k + geodesic (reordered p) (reordered q))%float.
Proof.
  intros Hp Hq. unfold arc_length.
  erewrite take_S_r by by eapply lookup_segment_lengths.
  apply sum_floats_snoc.
Qed.

Lemma arc_length_total pts :
  arc_length geodesic pts (length pts - 1) = total_arc_length geodesic pts.
Proof.
  unfold arc_length, total_arc_length.
  rewrite take_ge; [done|]. rewrite length_segment_lengths. lia.
Qed.

(** The accumulation loop of [lane_length] after [k] rounds. *)
Lemma lane_length_loop pts k :
  k ≤ length pts - 1 →
  fold_left
    (λ total i,
       match pts !! (i - 1), pts !! i with
       | Some p, Some q => (total + geodesic (reordered p) (reordered q))%float
       | _, _ => total
       end)
    (seq 1 k) 0%float
  = arc_length geodesic pts k.
Proof.
  induction k as [|k IH]; intros Hk; [done|].
  rewrite seq_S, fold_left_app, IH by lia. cbn [fold_left].
  replace (1 + k - 1) with k by lia. replace (1 + k) with (S k) by lia.
  destruct (lookup_lt_is_Some_2 pts k) as [p Hp]; [lia|].
  destruct (lookup_lt_is_Some_2 pts (S k)) as [q Hq]; [lia|].
  rewrite Hp, Hq. symmetry. by apply arc_length_S.
Qed.

(** [lane_length] computes [edge_cost geodesic]. *)
Lemma lane_length_edge_cost lane :
  lane_length geodesic lane = edge_cost geodesic lane.
Proof.
  unfold lane_length, edge_cost. case_decide; [done|].
  rewrite lane_length_loop by lia. apply arc_length_total.
Qed.

(** The list [cumulative] after [k] rounds of the first loop of
    [truncate_goal_lane]. *)
Lemma cumulative_loop pts k :
  k ≤ length pts - 1 →
  fold_left
    (λ cumulative i,
       match pts !! (i - 1), pts !! i, last cumulative with
       | Some p, Some q, Some c =>
           cumulative ++ [(c + geodesic (reordered p) (reordered q))%float]
       | _, _, _ => cumulative
       end)
    (seq 1 k) [0%float]
  = arc_length geodesic pts <$> seq 0 (S k).
Proof.
  induction k as [|k IH]; intros Hk; [done|].
  rewrite seq_S, fold_left_app, IH by lia. cbn [fold_left].
  replace (1 + k - 1) with k by lia. replace (1 + k) with (S k) by lia.
  destruct (lookup_lt_is_Some_2 pts k) as [p Hp]; [lia|].
  destruct (lookup_lt_is_Some_2 pts (S k)) as [q Hq]; [lia|].
  rewrite Hp, Hq.
  assert (last (arc_length geodesic pts <$> seq 0 (S k))
          = Some (arc_length geodesic pts k))
    as ->.
  { rewrite seq_S, fmap_app. apply last_snoc. }
  rewrite (seq_S (S k)), fmap_app. f_equal. cbn [fmap list_fmap].
  f_equal. symmetry. by apply arc_length_S.
Qed.

Lemma cumulative_distances_arc pts :
  cumulative_distances geodesic pts
  = arc_length geodesic pts <$> seq 0 (S (length pts - 1)).
Proof. unfold cumulative_distances. by apply cumulative_loop. Qed.

Lemma cumulative_distances_lookup pts i :
  i < length pts →
  cumulative_distances geodesic pts !! i = Some (arc_length geodesic pts i).
Proof.
  intros Hi. rewrite cumulative_distances_arc, list_lookup_fmap.
  rewrite lookup_seq_lt by lia. done.
Qed.

Lemma cumulative_distances_last pts :
  last (cumulative_distances geodesic pts)
  = Some (total_arc_length geodesic pts).
Proof.
  rewrite cumulative_distances_arc, seq_S, fmap_app. simpl.
  by rewrite last_snoc, arc_length_total.
Qed.

(** The search for the candidate index, started at index [i] with the
    points from [i] on left to enumerate. *)
Lemma find_candidate_spec pts goal_gps min_fraction threshold i :
  i ≤ length pts →
  match find_candidate geodesic (cumulative_distances geodesic pts)
          (total_arc_length geodesic pts) goal_gps min_fraction threshold i
          (drop i pts) with
  | Some k =>
      i ≤ k < length pts
      ∧ qualifies geodesic pts goal_gps min_fraction threshold k = true
      ∧ ∀ j, i ≤ j < k →
             qualifies geodesic pts goal_gps min_fraction threshold j = false
  | None =>
      ∀ j, i ≤ j < length pts →
           qualifies geodesic pts goal_gps min_fraction threshold j = false
  end.
Proof.
  intros Hi. remember (length pts - i) as m eqn:Hm.
  revert i Hi Hm. induction m as [|m IH]; intros i Hi Hm.
  - rewrite drop_ge by lia. simpl. intros j Hj. lia.
  - destruct (lookup_lt_is_Some_2 pts i) as [pt Hpt]; [lia|].
    rewrite (drop_S _ _ _ Hpt). simpl.
    rewrite cumulative_distances_lookup by lia.
    assert (qualifies geodesic pts goal_gps min_fraction threshold i
            = PrimFloat.leb min_fraction
                (arc_length geodesic pts i
                 / total_arc_length geodesic pts)%float
              && PrimFloat.ltb (geodesic (reordered goal_gps) (reordered pt))
                               threshold) as Hq.
    { unfold qualifies. by rewrite Hpt. }
    rewrite <- Hq.
    destruct (qualifies geodesic pts goal_gps min_fraction threshold i) eqn:Hqi.
    + split; [lia|]. split; [done|]. intros j Hj. lia.
    + specialize (IH (S i) ltac:(lia) ltac:(lia)).
      destruct (find_candidate _ _ _ _ _ _ (S i) _) as [k|].
      * destruct IH as (Hk & Hqk & Hbefore).
        split; [lia|]. split; [done|]. intros j Hj.
        destruct (decide (j = i)) as [-> | Hne]; [done|].
        apply Hbefore. lia.
      * intros j Hj. destruct (decide (j = i)) as [-> | Hne]; [done|].
        apply IH. lia.
Qed.

(** Cutting through index [k] and overwriting the last point. *)
Lemma truncated_replace_last pts k (goal_gps : point coord) :
  k < length pts →
  <[length (take (k + 1) pts) - 1 := goal_gps]> (take (k + 1) pts)
  = take k pts ++ [goal_gps].
Proof.
  intros Hk. destruct (lookup_lt_is_Some_2 pts k) as [pt Hpt]; [done|].
  replace (k + 1) with (S k) by lia. rewrite (take_S_r _ _ _ Hpt).
  rewrite length_app, length_take. simpl.
  replace (k `min` length pts + 1 - 1) with (length (take k pts) + 0)
    by (rewrite length_take; lia).
  by rewrite insert_app_r.
Qed.

(** The shape of every result: a prefix of the centerline, then the goal
    point. *)
Lemma truncate_goal_lane_shape pts (goal_gps : point coord)
    (min_fraction threshold : float) :
  ∃ k, k ≤ length pts - 1
     ∧ truncate_goal_lane geodesic pts goal_gps min_fraction threshold
       = take k pts ++ [goal_gps].
Proof.
  unfold truncate_goal_lane. case_decide as Hn.
  { exists 0. split; [lia|]. by rewrite take_0. }
  destruct (PrimFloat.eqb _ 0).
  { exists 0. split; [lia|]. by rewrite take_0. }
  rewrite cumulative_distances_last. simpl.
  pose proof (find_candidate_spec pts goal_gps min_fraction threshold 0
                ltac:(lia)) as Hfind.
  rewrite drop_0 in Hfind.
  destruct (find_candidate _ _ _ _ _ _ 0 pts) as [k|]; simpl.
  - exists k. split; [lia|]. apply truncated_replace_last. lia.
  - exists (length pts - 1). split; [lia|]. apply truncated_replace_last. lia.
Qed.

(** C8: [truncate_goal_lane] returns [[goal_gps]] when the centerline is
    empty or its total arc length is zero.  Otherwise it returns the
    centerline cut through an index [k], its last point replaced by the
    goal point, where [k] is the first index whose arc-length fraction is at
    least [min_fraction] and whose distance to the goal point is below
    [threshold], or the last index when no index is such. *)
Theorem truncate_goal_lane_selects_first_candidate
    pts (goal_gps : point coord) (min_fraction threshold : float) :
  (pts = [] ∨ PrimFloat.eqb (total_arc_length geodesic pts) 0 = true →
   truncate_goal_lane geodesic pts goal_gps min_fraction threshold
   = [goal_gps])
  ∧ (pts ≠ [] → PrimFloat.eqb (total_arc_length geodesic pts) 0 = false →
     ∃ k, k < length pts
        ∧ truncate_goal_lane geodesic pts goal_gps min_fraction threshold
          = <[k := goal_gps]> (take (S k) pts)
        ∧ ((qualifies geodesic pts goal_gps min_fraction threshold k = true
            ∧ ∀ j, j < k →
                   qualifies geodesic pts goal_gps min_fraction threshold j
                   = false)
           ∨ (k = length pts - 1
              ∧ ∀ j, j < length pts →
                     qualifies geodesic pts goal_gps min_fraction threshold j
                     = false))).
Proof.
  unfold truncate_goal_lane. rewrite cumulative_distances_last. simpl.
  split.
  - intros [-> | Hzero]; [done|]. rewrite Hzero. by case_decide.
  - intros Hne Hzero. rewrite Hzero.
    case_decide as Hn; [by destruct pts|].
    pose proof (find_candidate_spec pts goal_gps min_fraction threshold 0
                  ltac:(lia)) as Hfind.
    rewrite drop_0 in Hfind.
    assert (∀ k, k < length pts →
              <[length (take (k + 1) pts) - 1 := goal_gps]> (take (k + 1) pts)
              = <[k := goal_gps]> (take (S k) pts)) as Hcut.
    { intros k Hk. rewrite length_take.
      replace (k + 1) with (S k) by lia. f_equal. lia. }
    destruct (find_candidate _ _ _ _ _ _ 0 pts) as [k|]; simpl.
    + destruct Hfind as (Hk & Hqk & Hbefore). exists k.
      split; [lia|]. split; [apply Hcut; lia|].
      left. split; [done|]. intros j Hj. apply Hbefore. lia.
    + exists (length pts - 1).
      split; [lia|]. split; [apply Hcut; lia|].
      right. split; [done|]. intros j Hj. apply Hfind. lia.
Qed.

(** [truncate_goal_lane] leaves the one-point sequence [[goal_gps]] as it
    is: its arc length is zero. *)
Lemma truncate_goal_lane_goal_only (goal_gps : point coord)
    (min_fraction threshold : float) :
  truncate_goal_lane geodesic [goal_gps] goal_gps min_fraction threshold
  = [goal_gps].
Proof. reflexivity. Qed.

(** C3, as amended: applying [truncate_goal_lane] to its own output, with
    the same goal point and parameters, gives a sequence that ends with the
    goal point, is no longer than the first output, and whose points before
    the final goal point are a prefix of those of the first output; and the
    output [[goal_gps]] is returned unchanged. *)
Theorem truncate_goal_lane_twice pts (goal_gps : point coord)
    (min_fraction threshold : float) :
  let once :=
    truncate_goal_lane geodesic pts goal_gps min_fraction threshold in
  let twice :=
    truncate_goal_lane geodesic once goal_gps min_fraction threshold in
  last twice = Some goal_gps
  ∧ length twice ≤ length once
  ∧ removelast twice `prefix_of` removelast once
  ∧ truncate_goal_lane geodesic [goal_gps] goal_gps min_fraction threshold
    = [goal_gps].
Proof.
  intros once twice.
  destruct (truncate_goal_lane_shape pts goal_gps min_fraction threshold)
    as (k & Hk & Honce).
  destruct (truncate_goal_lane_shape once goal_gps min_fraction threshold)
    as (k' & Hk' & Htwice).
  fold once in Honce. fold twice in Htwice. rewrite Htwice.
  assert (length once = length (take k pts) + 1) as Hlen.
  { rewrite Honce, length_app. simpl. lia. }
  assert (take k' once = take k' (take k pts)) as Hpre.
  { rewrite Honce. apply take_app_le. lia. }
  split; [apply last_snoc|].
  split; [rewrite length_app, length_take; simpl; lia|].
  split; [|apply truncate_goal_lane_goal_only].
  rewrite removelast_last, Hpre, Honce, removelast_last.
  exists (drop k' (take k pts)). by rewrite take_drop.
Qed.

(** The list that [try_compute_path] publishes is never empty. *)
Lemma assemble_centerline_nonempty (lanes : gmap Z (@LaneNode coord))
    (lane_path : list Z) pts (goal_gps : point coord) :
  assemble_centerline geodesic lanes lane_path pts goal_gps ≠ [].
Proof.
  unfold assemble_centerline. apply remove_cycles_nonempty.
  destruct (truncate_goal_lane_shape pts goal_gps 0x1.999999999999ap-4 5)
    as (k & _ & ->).
  intros Hnil. apply app_eq_nil in Hnil as [_ Hnil].
  by apply app_eq_nil in Hnil as [_ Hnil].
Qed.

End CostModelProperties.

Lemma truncate_goal_lane_selects_first_candidate_witness :
  ∃ k, k < length long_centerline
     ∧ truncate_goal_lane grid_geodesic long_centerline (diag 2)
                          0x1.999999999999ap-4 5
       = <[k := diag 2]> (take (S k) long_centerline)
     ∧ ((qualifies grid_geodesic long_centerline (diag 2)
                   0x1.999999999999ap-4 5 k = true
         ∧ ∀ j, j < k →
                qualifies grid_geodesic long_centerline (diag 2)
                          0x1.999999999999ap-4 5 j = false)
        ∨ (k = length long_centerline - 1
           ∧ ∀ j, j < length long_centerline →
                  qualifies grid_geodesic long_centerline (diag 2)
                            0x1.999999999999ap-4 5 j = false)).
Proof.
  apply (truncate_goal_lane_selects_first_candidate grid_geodesic
           long_centerline (diag 2) 0x1.999999999999ap-4 5).
  - done.
  - by vm_compute.
Defined.

(** C3, as stated, fails: on a centerline of four points with the goal at
    the third, the first application keeps all four indices (the far end of
    the lane is the only index past a tenth of the arc length, and it is not
    near the goal); on its output the arc length is that of the first three
    points, index 1 is past a tenth of it and near the goal, and the second
    application cuts there. *)
Lemma truncate_goal_lane_not_idempotent :
  let once :=
    truncate_goal_lane grid_geodesic long_centerline (diag 2)
                       0x1.999999999999ap-4 5 in
  once = [diag 0; diag 1; diag 2; diag 2]
  ∧ truncate_goal_lane grid_geodesic once (diag 2) 0x1.999999999999ap-4 5
    = [diag 0; diag 2]
  ∧ truncate_goal_lane grid_geodesic once (diag 2) 0x1.999999999999ap-4 5
    ≠ once.
Proof. vm_compute. by repeat split. Qed.

(** ** The open list *)

Section HeapqProperties.
Context {A : Type}.
Variable lt : A → A → bool.
Implicit Types (heap : list A).

Lemma elem_of_insert_inv heap i (x y : A) :
  y ∈ <[i := x]> heap → y = x ∨ y ∈ heap.
Proof.
  intros (j & Hj)%list_elem_of_lookup.
  destruct (decide (i = j)) as [-> | Hne].
  - destruct (decide (j < length heap)).
    + rewrite list_lookup_insert_eq in Hj by done. left. congruence.
    + rewrite list_insert_ge in Hj by lia. right.
      apply list_elem_of_lookup. eauto.
  - rewrite list_lookup_insert_ne in Hj by done. right.
    apply list_elem_of_lookup. eauto.
Qed.

(** Sifting moves items; it brings in none. *)
Lemma _siftdown_loop_elem fuel heap startpos newitem pos y :
  y ∈ _siftdown_loop lt fuel heap startpos newitem pos →
  y = newitem ∨ y ∈ heap.
Proof.
  revert heap pos.
  induction fuel as [|fuel IH]; intros heap pos; cbn [_siftdown_loop].
  - apply elem_of_insert_inv.
  - case_decide; [|apply elem_of_insert_inv].
    destruct (heap !! ((pos - 1) / 2)) as [parent|] eqn:Hparent;
      [|apply elem_of_insert_inv].
    destruct (lt newitem parent); [|apply elem_of_insert_inv].
    intros Hy. apply IH in Hy as [Hy | Hy]; [by left|].
    apply elem_of_insert_inv in Hy as [Hy | Hy]; [|by right].
    right. subst y. apply list_elem_of_lookup. eauto.
Qed.

Lemma _siftdown_elem heap startpos pos y :
  y ∈ _siftdown lt heap startpos pos → y ∈ heap.
Proof.
  unfold _siftdown. destruct (heap !! pos) as [newitem|] eqn:Hpos; [|done].
  intros Hy. apply _siftdown_loop_elem in Hy as [Hy | Hy]; [|done].
  subst y. apply list_elem_of_lookup. eauto.
Qed.

Lemma _siftup_loop_elem fuel heap endpos pos y :
  y ∈ (_siftup_loop lt fuel heap endpos pos).1 → y ∈ heap.
Proof.
  revert heap pos.
  induction fuel as [|fuel IH]; intros heap pos; cbn [_siftup_loop];
    [done|].
  case_decide; [|done].
  set (childpos := match heap !! (2 * pos + 1) with
                   | Some _ => _ | None => _ end).
  destruct (heap !! childpos) as [child|] eqn:Hchild; [|done].
  intros Hy. apply IH, elem_of_insert_inv in Hy as [Hy | Hy]; [|done].
  subst y. apply list_elem_of_lookup. eauto.
Qed.

Lemma _siftup_elem heap pos y : y ∈ _siftup lt heap pos → y ∈ heap.
Proof.
  unfold _siftup. destruct (heap !! pos) as [newitem|] eqn:Hpos; [|done].
  destruct (_siftup_loop lt (length heap) heap (length heap) pos)
    as [heap' pos'] eqn:Hloop.
  intros Hy. apply _siftdown_elem, elem_of_insert_inv in Hy as [Hy | Hy].
  - subst y. apply list_elem_of_lookup. eauto.
  - apply (_siftup_loop_elem (length heap) heap (length heap) pos).
    by rewrite Hloop.
Qed.

Lemma heappush_elem heap item y :
  y ∈ heappush lt heap item → y = item ∨ y ∈ heap.
Proof.
  unfold heappush. intros Hy. apply _siftdown_elem in Hy.
  apply elem_of_app in Hy as [Hy | Hy]; [by right|].
  apply list_elem_of_singleton in Hy. by left.
Qed.

Lemma heappop_elem heap item heap' :
  heappop lt heap = Some (item, heap') →
  item ∈ heap ∧ ∀ y, y ∈ heap' → y ∈ heap.
Proof.
  unfold heappop. destruct (last heap) as [lastelt|] eqn:Hlast; [|done].
  apply last_Some in Hlast as [front ->].
  rewrite removelast_last. destruct front as [|returnitem front].
  - intros [= <- <-]. split; [apply list_elem_of_here|]. intros y Hy.
    by apply elem_of_nil in Hy.
  - intros [= <- <-]. split; [apply list_elem_of_here|].
    intros y Hy. apply _siftup_elem in Hy. cbn in Hy.
    apply elem_of_cons in Hy as [Hy | Hy].
    + subst y. apply elem_of_app. right. apply list_elem_of_here.
    + apply elem_of_app. left. by apply list_elem_of_further.
Qed.

(** The fuel the callers give is never exhausted: any two amounts of fuel
    that cover the distance to go give the same result. *)
Lemma _siftdown_loop_fuel fuel1 fuel2 heap startpos newitem pos :
  pos ≤ fuel1 → pos ≤ fuel2 →
  _siftdown_loop lt fuel1 heap startpos newitem pos
  = _siftdown_loop lt fuel2 heap startpos newitem pos.
Proof.
  revert fuel2 heap pos.
  induction fuel1 as [|fuel1 IH]; intros [|fuel2] heap pos Hpos1 Hpos2;
    cbn [_siftdown_loop]; try done.
  - case_decide; [lia|done].
  - case_decide; [lia|done].
  - case_decide; [|done].
    destruct (heap !! ((pos - 1) / 2)) as [parent|]; [|done].
    destruct (lt newitem parent); [|done].
    pose proof (Nat.Div0.div_le_upper_bound (pos - 1) 2 fuel1).
    pose proof (Nat.Div0.div_le_upper_bound (pos - 1) 2 fuel2).
    apply IH; lia.
Qed.

Lemma _siftup_loop_fuel fuel1 fuel2 heap endpos pos :
  endpos - pos ≤ fuel1 → endpos - pos ≤ fuel2 →
  _siftup_loop lt fuel1 heap endpos pos
  = _siftup_loop lt fuel2 heap endpos pos.
Proof.
  revert fuel2 heap pos.
  induction fuel1 as [|fuel1 IH]; intros [|fuel2] heap pos Hpos1 Hpos2;
    cbn [_siftup_loop]; try done.
  - case_decide; [lia|done].
  - case_decide; [lia|done].
  - case_decide as Hchild; [|done].
    set (childpos := match heap !! (2 * pos + 1) with
                     | Some _ => _ | None => _ end).
    assert (pos < childpos) as Hlt.
    { subst childpos. destruct (heap !! (2 * pos + 1)); [|lia].
      destruct (heap !! (2 * pos + 1 + 1)); [|lia].
      destruct (_ && _); lia. }
    destruct (heap !! childpos) as [child|]; [|done].
    apply IH; lia.
Qed.

End HeapqProperties.

(** ** The search *)

Section SearchProperties.
Context {coord : Type} `{Countable coord}.
Variable geodesic : LatLon coord → LatLon coord → float.
Implicit Types (st : @SearchState coord) (graph : gmap Z (list Z)).

Lemma expand_neighbor_closed_set goal_lane current st neighbor_id :
  closed_set (expand_neighbor geodesic goal_lane current st neighbor_id)
  = closed_set st.
Proof.
  unfold expand_neighbor. case_decide; [done|].
  destruct (lanes st !! neighbor_id); [|done].
  destruct (lanes st !! current); [|done].
  destruct (lanes st !! goal_lane); [|done].
  by destruct (PrimFloat.ltb _ _).
Qed.

Lemma expand_neighbor_dom goal_lane current st neighbor_id :
  dom (lanes (expand_neighbor geodesic goal_lane current st neighbor_id))
  = dom (lanes st).
Proof.
  unfold expand_neighbor. case_decide; [done|].
  destruct (lanes st !! neighbor_id) eqn:Hneighbor; [|done].
  destruct (lanes st !! current); [|done].
  destruct (lanes st !! goal_lane); [|done].
  destruct (PrimFloat.ltb _ _); [|done]. simpl.
  rewrite dom_insert_L. apply elem_of_dom_2 in Hneighbor.
  apply subseteq_union_1_L. by apply singleton_subseteq_l.
Qed.

Lemma expand_neighbor_open_list goal_lane current st neighbor_id k :
  k ∈ open_list (expand_neighbor geodesic goal_lane current st neighbor_id) →
  k ∈ open_list st ∨ (k = neighbor_id ∧ k ∈ dom (lanes st)).
Proof.
  unfold expand_neighbor. case_decide; [by left|].
  destruct (lanes st !! neighbor_id) eqn:Hneighbor; [|by left].
  destruct (lanes st !! current); [|by left].
  destruct (lanes st !! goal_lane); [|by left].
  destruct (PrimFloat.ltb _ _); [|by left]. simpl.
  intros Hk. apply heappush_elem in Hk as [-> | Hk]; [|by left].
  right. split; [done|]. by apply elem_of_dom_2 in Hneighbor.
Qed.

Lemma expand_neighbor_wf goal_lane current st neighbor_id :
  search_wf st →
  search_wf (expand_neighbor geodesic goal_lane current st neighbor_id).
Proof.
  intros [Hclosed Hopen]. split.
  - by rewrite expand_neighbor_closed_set, expand_neighbor_dom.
  - intros k Hk. rewrite expand_neighbor_dom.
    apply expand_neighbor_open_list in Hk as [Hk | [_ Hk]]; auto.
Qed.

Lemma expand_neighbors_wf goal_lane current neighbors st :
  search_wf st →
  search_wf (fold_left (expand_neighbor geodesic goal_lane current)
                       neighbors st).
Proof.
  revert st. induction neighbors as [|k neighbors IH]; intros st Hwf; [done|].
  simpl. by apply IH, expand_neighbor_wf.
Qed.

Lemma expand_neighbors_dom goal_lane current neighbors st :
  dom (lanes (fold_left (expand_neighbor geodesic goal_lane current)
                        neighbors st))
  = dom (lanes st).
Proof.
  revert st. induction neighbors as [|k neighbors IH]; intros st; [done|].
  simpl. by rewrite IH, expand_neighbor_dom.
Qed.

Lemma expand_neighbors_closed_set goal_lane current neighbors st :
  closed_set (fold_left (expand_neighbor geodesic goal_lane current)
                        neighbors st)
  = closed_set st.
Proof.
  revert st. induction neighbors as [|k neighbors IH]; intros st; [done|].
  simpl. by rewrite IH, expand_neighbor_closed_set.
Qed.

Lemma close_current_wf st current open_list' :
  search_wf st →
  heappop (lane_lt (lanes st)) (open_list st) = Some (current, open_list') →
  search_wf (close_current st current open_list').
Proof.
  intros [Hclosed Hopen] [Hcurrent Hrest]%heappop_elem. split; simpl.
  - apply Hopen in Hcurrent. apply union_subseteq. split; [|done].
    by apply singleton_subseteq_l.
  - intros k Hk. by apply Hopen, Hrest.
Qed.

Lemma a_star_init_wf lanes0 start_lane goal_lane st :
  a_star_init geodesic lanes0 start_lane goal_lane = Some st → search_wf st.
Proof.
  unfold a_star_init.
  destruct (lanes0 !! start_lane) as [s|] eqn:Hs; [|done].
  destruct (lanes0 !! goal_lane) as [goal|]; [|done].
  intros [= <-]. split; simpl; [set_solver|].
  intros k Hk. apply heappush_elem in Hk as [-> | Hk].
  - rewrite dom_insert_L. set_solver.
  - by apply elem_of_nil in Hk.
Qed.

Lemma a_star_step_wf graph goal_lane st st' :
  search_wf st → a_star_step geodesic graph goal_lane st = inr st' →
  search_wf st'.
Proof.
  intros Hwf. unfold a_star_step.
  destruct (heappop _ _) as [[current open_list']|] eqn:Hpop; [|done].
  case_decide; [by destruct (build_path _ _ _ _)|].
  intros [= <-]. by eapply expand_neighbors_wf, close_current_wf.
Qed.

(** Every state the loop reaches is well formed. *)
Lemma state_at_iteration_wf n graph goal_lane st st' :
  search_wf st →
  state_at_iteration geodesic n graph goal_lane st = Some st' →
  search_wf st'.
Proof.
  revert st. induction n as [|n IH]; intros st Hwf; simpl.
  - by intros [= <-].
  - destruct (a_star_step _ _ _ _) as [|st1] eqn:Hstep; [done|].
    apply IH. by eapply a_star_step_wf.
Qed.

(** A lane in [closed_set] is never written again. *)
Lemma expand_neighbor_closed_lane goal_lane current st neighbor_id k :
  k ∈ closed_set st →
  lanes (expand_neighbor geodesic goal_lane current st neighbor_id) !! k
  = lanes st !! k.
Proof.
  intros Hk. unfold expand_neighbor. case_decide as Hclosed; [done|].
  destruct (lanes st !! neighbor_id); [|done].
  destruct (lanes st !! current); [|done].
  destruct (lanes st !! goal_lane); [|done].
  destruct (PrimFloat.ltb _ _); [|done]. simpl.
  apply lookup_insert_ne. by intros ->.
Qed.

(** C7: when a successor that is not closed is expanded, the tentative cost
    is [current.g] plus the successor's own [edge_cost]: the sum of the
    geodesic distances between consecutive centerline points, or the
    geodesic distance from its start to its end point when the centerline
    has fewer than two points.  If that is below the successor's [g], the
    successor gets it as its new [g], with [f = g + h] and [current] as
    parent; otherwise nothing changes. *)
Theorem relaxation_charges_successor_length
    goal_lane current st neighbor_id neighbor cur goal :
  neighbor_id ∉ closed_set st →
  lanes st !! neighbor_id = Some neighbor →
  lanes st !! current = Some cur →
  lanes st !! goal_lane = Some goal →
  let tentative_g := (g cur + edge_cost geodesic neighbor)%float in
  let st' := expand_neighbor geodesic goal_lane current st neighbor_id in
  if PrimFloat.ltb tentative_g (g neighbor) then
    lanes st' !! neighbor_id
    = Some (set_search neighbor tentative_g (heuristic geodesic neighbor goal)
              (tentative_g + heuristic geodesic neighbor goal)%float
              (Some current))
  else st' = st.
Proof.
  intros Hopen Hneighbor Hcur Hgoal tentative_g st'. subst tentative_g st'.
  unfold expand_neighbor. case_decide; [done|].
  rewrite Hneighbor, Hcur, Hgoal, lane_length_edge_cost.
  destruct (PrimFloat.ltb _ _); [|done]. simpl. apply lookup_insert_eq.
Qed.

(** C9: when the lane popped is not the goal and one of its successor
    identifiers names no lane, that successor is skipped with a warning
    logged: expanding it appends the warning for that identifier to the
    log and leaves the lane objects, the open list and [closed_set] as
    they are; the successors after it are expanded from that state, and
    the iteration ends with the loop going on. *)
Theorem dangling_successor_skipped
    graph goal_lane st current open_list' before neighbor_id after :
  search_wf st →
  heappop (lane_lt (lanes st)) (open_list st) = Some (current, open_list') →
  current ≠ goal_lane →
  graph !! current = Some (before ++ neighbor_id :: after) →
  lanes st !! neighbor_id = None →
  let st1 :=
    fold_left (expand_neighbor geodesic goal_lane current) before
              (close_current st current open_list') in
  let st2 := expand_neighbor geodesic goal_lane current st1 neighbor_id in
  log st2 = log st1 ++ [WarnLaneNotFound neighbor_id]
  ∧ lanes st2 = lanes st1
  ∧ open_list st2 = open_list st1
  ∧ closed_set st2 = closed_set st1
  ∧ a_star_step geodesic graph goal_lane st
    = inr (fold_left (expand_neighbor geodesic goal_lane current) after st2).
Proof.
  intros Hwf Hpop Hne Hgraph Hdangling st1 st2.
  assert (lanes st1 !! neighbor_id = None) as Hnone.
  { apply not_elem_of_dom. subst st1. rewrite expand_neighbors_dom. simpl.
    by apply not_elem_of_dom. }
  assert (neighbor_id ∉ closed_set st1) as Hopen.
  { pose proof (expand_neighbors_wf goal_lane current before _
                  (close_current_wf _ _ _ Hwf Hpop)) as [Hclosed _].
    fold st1 in Hclosed. intros Hin. apply Hclosed in Hin.
    by apply not_elem_of_dom in Hnone. }
  assert (st2 = {| lanes := lanes st1; open_list := open_list st1;
                   closed_set := closed_set st1;
                   log := log st1 ++ [WarnLaneNotFound neighbor_id] |})
    as Hskip.
  { subst st2. unfold expand_neighbor. rewrite decide_False by done.
    by rewrite Hnone. }
  repeat split; try (by rewrite Hskip).
  unfold a_star_step. rewrite Hpop. rewrite decide_False by done.
  rewrite Hgraph. simpl. by rewrite fold_left_app.
Qed.

End SearchProperties.

(** ** Sample runs *)

Lemma relaxation_charges_successor_length_witness :
  ∃ st, a_star_init grid_geodesic dangling_lanes 0 1 = Some st
      ∧ lanes (expand_neighbor grid_geodesic 1 0 st 1) !! 1%Z
        = Some (set_search (LaneNode_init 1 (diag 1) (diag 2) [diag 1; diag 2])
                           3 3 6 (Some 0%Z)).
Proof.
  eexists. split; [by vm_compute|].
  apply (relaxation_charges_successor_length grid_geodesic 1 0 _ 1
           (LaneNode_init 1 (diag 1) (diag 2) [diag 1; diag 2])
           (set_search (LaneNode_init 0 (diag 0) (diag 1) [diag 0; diag 1])
                       0 0 0 None)
           (LaneNode_init 1 (diag 1) (diag 2) [diag 1; diag 2])).
  - apply not_elem_of_empty.
  - by vm_compute.
  - by vm_compute.
  - by vm_compute.
Defined.

Lemma dangling_successor_skipped_witness :
  ∃ st, a_star_init grid_geodesic dangling_lanes 0 1 = Some st
      ∧ log (expand_neighbor grid_geodesic 1 0 (close_current st 0 []) 99)
        = [WarnLaneNotFound 99]
      ∧ lanes (expand_neighbor grid_geodesic 1 0 (close_current st 0 []) 99)
        = lanes st
      ∧ open_list
          (expand_neighbor grid_geodesic 1 0 (close_current st 0 []) 99)
        = []
      ∧ closed_set
          (expand_neighbor grid_geodesic 1 0 (close_current st 0 []) 99)
        = {[0%Z]} ∪ closed_set st
      ∧ a_star_step grid_geodesic dangling_graph 1 st
        = inr (fold_left (expand_neighbor grid_geodesic 1 0) [1%Z]
                 (expand_neighbor grid_geodesic 1 0 (close_current st 0 [])
                                  99)).
Proof.
  eexists. split; [by vm_compute|].
  refine (dangling_successor_skipped grid_geodesic dangling_graph 1 _ 0 []
            [] 99 [1%Z] _ _ _ _ _).
  - by apply (a_star_init_wf grid_geodesic dangling_lanes 0 1).
  - by vm_compute.
  - done.
  - by vm_compute.
  - by vm_compute.
Defined.

(** Scenario D as a whole: the search warns about lane 99 once and returns
    the lane path through the valid successor. *)
Example dangling_map_run :
  ∃ st, a_star_lane_level grid_geodesic 3 dangling_graph dangling_lanes 0 1
        = Returned (Some [0; 1]%Z) st
      ∧ log st = [WarnLaneNotFound 99].
Proof. eexists. split; by vm_compute. Qed.

(** C1, at two lanes on the parallel of latitude 60: [heuristic] hands the
    points [(lon, lat)] to [geodesic] as they are, so that the longitudes 10
    and 20 are read as latitudes, while [lane_length] reorders the same two
    points; on the sample grid the heuristic is 20 and the lane length 10. *)
Theorem heuristic_reads_longitude_as_latitude :
  (∀ (geodesic : LatLon Z → LatLon Z → float) (a b : @LaneNode Z),
     heuristic geodesic a b
     = geodesic {| lat := (end_ a).1; lon := (end_ a).2 |}
                {| lat := (start b).1; lon := (start b).2 |})
  ∧ (∀ (geodesic : LatLon Z → LatLon Z → float),
       heuristic geodesic lane_west lane_east
       = geodesic {| lat := 10%Z; lon := 60%Z |}
                  {| lat := 20%Z; lon := 60%Z |}
       ∧ lane_length geodesic lane_link
         = geodesic {| lat := 60%Z; lon := 10%Z |}
                    {| lat := 60%Z; lon := 20%Z |})
  ∧ heuristic grid_geodesic lane_west lane_east = 20%float
  ∧ lane_length grid_geodesic lane_link = 10%float.
Proof. by repeat split. Qed.

(** Case analysis on a successor-connected lane sequence of a map given
    in full: the next lane is one of the successors listed. *)
Ltac next_lane Hconn Hlast :=
  lazymatch type of Hconn with
  | connected_from _ _ ?path = true =>
      let b := fresh "b" in
      let rest := fresh "rest" in
      let Hb := fresh "Hb" in
      destruct path as [|b rest]; cbn [last] in Hlast;
      [ first [ discriminate Hlast | by vm_compute ]
      | cbn [connected_from] in Hconn;
        apply andb_prop in Hconn as [Hb Hconn];
        apply bool_decide_eq_true in Hb; vm_compute in Hb;
        repeat (apply elem_of_cons in Hb as [-> | Hb]);
        [ next_lane Hconn Hlast .. | by apply elem_of_nil in Hb ] ]
  end.

(** On [detour_map] the heuristic is admissible. *)
Lemma detour_heuristic_admissible :
  heuristic_admissible grid_geodesic detour_graph detour_lanes 5 detour_goal.
Proof.
  intros k lane path Hlane Hconn Hlast. cbn [successor_connected] in Hconn.
  apply elem_of_map_to_list in Hlane. vm_compute in Hlane.
  repeat (apply elem_of_cons in Hlane as [[= -> ->] | Hlane]);
    [ next_lane Hconn Hlast .. | by apply elem_of_nil in Hlane ].
Qed.

(** C2, on [detour_map]: no lane length is negative, the heuristic is
    consistent, zero at the goal lane and admissible, and the call returns
    the lane sequence [0, 4, 5], of total length 69, while [0, 1, 2, 5] is
    successor-connected from the start lane to the goal lane and of total
    length 63. *)
Theorem a_star_returns_longer_path :
  lane_lengths_nonneg grid_geodesic detour_lanes = true
  ∧ detour_lanes !! 5%Z = Some detour_goal
  ∧ heuristic_consistent grid_geodesic detour_graph detour_lanes detour_goal
    = true
  ∧ heuristic_admissible grid_geodesic detour_graph detour_lanes 5 detour_goal
  ∧ (∃ st, a_star_lane_level grid_geodesic 6 detour_graph detour_lanes 0 5
           = Returned (Some [0; 4; 5]%Z) st)
  ∧ successor_connected detour_graph [0; 1; 2; 5]%Z = true
  ∧ total_centerline_length grid_geodesic detour_lanes [0; 4; 5]%Z = 69%float
  ∧ total_centerline_length grid_geodesic detour_lanes [0; 1; 2; 5]%Z
    = 63%float.
Proof.
  split; [by vm_compute|]. split; [by vm_compute|]. split; [by vm_compute|].
  split; [apply detour_heuristic_admissible|].
  split; [eexists; by vm_compute|]. by vm_compute.
Qed.

(** C6, on [detour_map]: when the loop is entered the fourth time the open
    list is [5, 2, 3, 2]; lane 5 is popped, with [f = 66], while lane 2 is
    in the open list, is not closed, and has [f = 54]. *)
Theorem pop_is_not_the_minimum :
  ∃ st,
    a_star_init grid_geodesic detour_lanes 0 5
      ≫= state_at_iteration grid_geodesic 3 detour_graph 5 = Some st
    ∧ open_list st = [5; 2; 3; 2]%Z
    ∧ heappop (lane_lt (lanes st)) (open_list st) = Some (5%Z, [2; 2; 3]%Z)
    ∧ lane_f (lanes st) 5 = 66%float
    ∧ lane_f (lanes st) 2 = 54%float
    ∧ 2%Z ∈ open_list st
    ∧ 2%Z ∉ closed_set st.
Proof.
  eexists. split; [by vm_compute|].
  repeat (split; [by vm_compute|]).
  split; apply (bool_decide_unpack _); by vm_compute.
Qed.

(** C10, on [crossing_map] with the start at S and the goal at G: the
    lane path is [1, 2, 3, 4], the list handed to loop removal is
    [S, A, G, G, X, A, A, D, D, G], and the path published is [S, A, D]; it
    does not end at the goal point G. *)
Theorem published_path_misses_goal :
  (∃ st, a_star_lane_level grid_geodesic 5 (load_lane_graph crossing_map).2
           (reset_lane_states (entries (load_lane_graph crossing_map).1)) 1 4
         = Returned (Some [1; 2; 3; 4]%Z) st)
  ∧ try_compute_path grid_geodesic 5 (load_lane_graph crossing_map).1
                     (load_lane_graph crossing_map).2 (Some at_S) (Some at_G)
    = Path [at_S; at_A; at_D]
  ∧ last [at_S; at_A; at_D] ≠ Some at_G.
Proof. split; [eexists; by vm_compute|]. split; by vm_compute. Qed.

(** * Part V. Further properties of the code *)

(** ** The order of floats

    [<] on binary64, through the specification of the primitive
    operations: it is irreflexive and transitive (with NaN comparing false
    to everything). *)

Lemma SFltb_irrefl x : SpecFloat.SFltb x x = false.
Proof.
  unfold SpecFloat.SFltb. destruct x as [s|s| |s m e]; simpl; try done;
    destruct s; try done; by rewrite Z.compare_refl, Pos.compare_cont_refl.
Qed.

Lemma SFltb_trans x y z :
  SpecFloat.SFltb x y = true → SpecFloat.SFltb y z = true →
  SpecFloat.SFltb x z = true.
Proof.
  unfold SpecFloat.SFltb.
  destruct x as [sx|sx| |sx mx ex], y as [sy|sy| |sy my ey],
           z as [sz|sz| |sz mz ez]; simpl;
    try destruct sx; try destruct sy; try destruct sz; simpl; try done.
  all: change (PosDef.Pos.compare_cont Eq mx my) with (Pos.compare mx my);
    change (PosDef.Pos.compare_cont Eq my mz) with (Pos.compare my mz);
    change (PosDef.Pos.compare_cont Eq mx mz) with (Pos.compare mx mz);
    destruct (Z.compare_spec ex ey), (Z.compare_spec ey ez),
             (Z.compare_spec ex ez); simpl; try done; try lia;
    destruct (Pos.compare_spec mx my), (Pos.compare_spec my mz),
             (Pos.compare_spec mx mz); simpl; try done; lia.
Qed.

Lemma ltb_irrefl (x : float) : PrimFloat.ltb x x = false.
Proof. rewrite FloatAxioms.ltb_spec. apply SFltb_irrefl. Qed.

Lemma ltb_trans (x y z : float) :
  PrimFloat.ltb x y = true → PrimFloat.ltb y z = true →
  PrimFloat.ltb x z = true.
Proof. rewrite !FloatAxioms.ltb_spec. apply SFltb_trans. Qed.

(** What is not below a bound is not below anything that is below the
    bound: the form in which the loops use the order. *)
Lemma ltb_not_below (x y z : float) :
  PrimFloat.ltb x z = false → PrimFloat.ltb y z = true →
  PrimFloat.ltb x y = false.
Proof.
  intros Hxz Hyz. destruct (PrimFloat.ltb x y) eqn:Hxy; [|done].
  by rewrite (ltb_trans x y z Hxy Hyz) in Hxz.
Qed.

(** ** Loop removal, continued *)

Section RemoveCyclesMore.
Context {coord : Type} `{Countable coord}.
Implicit Types (pt : point coord) (path new_path : list (point coord)).
Implicit Types (seen : gmap (point coord) nat).

Lemma remove_cycles_fold_sublist path read acc :
  acc.2 `sublist_of` read →
  (fold_left remove_cycles_step path acc).2 `sublist_of` read ++ path.
Proof.
  revert read acc.
  induction path as [|pt path IH]; intros read [seen new_path] Hsub; simpl.
  - by rewrite app_nil_r.
  - replace (read ++ pt :: path) with ((read ++ [pt]) ++ path)
      by (by rewrite <- app_assoc).
    apply IH.
    destruct (seen !! pt) as [idx|]; simpl in *.
    + apply sublist_inserts_r. etrans; [apply sublist_take|done].
    + by apply sublist_app.
Qed.

Lemma remove_cycles_fold_head path acc :
  acc.2 ≠ [] → head (fold_left remove_cycles_step path acc).2 = head acc.2.
Proof.
  revert acc. induction path as [|pt path IH]; intros [seen new_path] Hne;
    [done|].
  simpl. rewrite IH.
  - destruct (seen !! pt) as [idx|]; simpl in *.
    + destruct new_path; [done|]. by replace (idx + 1) with (S idx) by lia.
    + by destruct new_path.
  - destruct (seen !! pt) as [idx|]; simpl in *.
    + destruct new_path; [done|]. by replace (idx + 1) with (S idx) by lia.
    + by destruct new_path.
Qed.

(** X1: the output of [remove_cycles_from_path] is a subsequence of the
    input: its points are points of the input, in the order of the input;
    nothing is invented or moved. *)
Theorem remove_cycles_subsequence path :
  remove_cycles_from_path path `sublist_of` path.
Proof.
  apply (remove_cycles_fold_sublist path [] (∅, [])). simpl. constructor.
Qed.

(** X2: the output of [remove_cycles_from_path] starts with the first point
    of the input; of an empty input it is empty. *)
Theorem remove_cycles_keeps_first_point path :
  head (remove_cycles_from_path path) = head path.
Proof.
  destruct path as [|pt path]; [done|].
  unfold remove_cycles_from_path. simpl. rewrite lookup_empty.
  by rewrite remove_cycles_fold_head.
Qed.

(** X3: [remove_cycles_from_path] is idempotent. *)
Theorem remove_cycles_idempotent path :
  remove_cycles_from_path (remove_cycles_from_path path)
  = remove_cycles_from_path path.
Proof.
  assert (NoDup (remove_cycles_from_path path)) as Hnd.
  { unfold remove_cycles_from_path.
    apply (cycles_inv_fold path 0 (∅, [])).
    repeat split; simpl; [apply NoDup_nil_2 | | lia].
    intros pt Hpt. by apply elem_of_nil in Hpt. }
  by apply (remove_cycles_fold_fresh _ ∅ []).
Qed.

End RemoveCyclesMore.

(** ** Goal-lane truncation, continued *)

Section TruncateMore.
Context {coord : Type} `{Countable coord}.
Variable geodesic : LatLon coord → LatLon coord → float.
Implicit Types (pts : list (point coord)).

(** X4: whatever the centerline and the parameters, the result of
    [truncate_goal_lane] ends with the goal point (so it is not empty), what
    comes before the goal point is a prefix of the centerline, and the
    result is no longer than the centerline, or of length one. *)
Theorem truncate_goal_lane_ends_at_goal pts (goal_gps : point coord)
    (min_fraction threshold : float) :
  let out := truncate_goal_lane geodesic pts goal_gps min_fraction threshold in
  last out = Some goal_gps
  ∧ removelast out `prefix_of` pts
  ∧ length out ≤ length pts `max` 1.
Proof.
  intros out. subst out.
  destruct (truncate_goal_lane_shape geodesic pts goal_gps min_fraction
              threshold) as (k & Hk & ->).
  split; [apply last_snoc|]. rewrite removelast_last. split.
  - exists (drop k pts). by rewrite take_drop.
  - rewrite length_app, length_take. simpl. lia.
Qed.

Lemma sum_floats_zeros (ds : list float) :
  Forall (λ d, d = 0%float) ds → sum_floats ds = 0%float.
Proof.
  unfold sum_floats. induction 1 as [|d ds -> _ IH]; [done|]. simpl.
  by change (0 + 0)%float with 0%float.
Qed.

(** X5: a centerline all of whose segments have length zero (a single
    point, or points that coincide) has total length zero, and the result
    is the goal point alone. *)
Theorem truncate_goal_lane_zero_length pts (goal_gps : point coord)
    (min_fraction threshold : float) :
  Forall (λ d, d = 0%float) (segment_lengths geodesic pts) →
  truncate_goal_lane geodesic pts goal_gps min_fraction threshold
  = [goal_gps].
Proof.
  intros Hzero. unfold truncate_goal_lane. case_decide; [done|].
  rewrite cumulative_distances_last. simpl.
  unfold total_arc_length. by rewrite (sum_floats_zeros _ Hzero).
Qed.

End TruncateMore.

(** ** load_lane_graph *)

Section LoadProperties.
Context {coord : Type} `{Countable coord}.
Implicit Types (lanes_data : list (@LaneRecord coord)).
Implicit Types (graph : gmap Z (list Z)).

Lemma load_lane_graph_snoc lanes_data r :
  load_lane_graph (lanes_data ++ [r])
  = load_lane_step (load_lane_graph lanes_data) r.
Proof. unfold load_lane_graph. by rewrite fold_left_app. Qed.

Lemma load_lane_step_dict acc (r : @LaneRecord coord) :
  (load_lane_step acc r).1 = dict_set acc.1 (rec_path_id r) (lane_of_record r).
Proof. by destruct acc. Qed.

Lemma load_lane_step_graph acc (r : @LaneRecord coord) :
  (load_lane_step acc r).2
  = fold_left
      (λ graph connection,
         <[rec_path_id r :=
             default [] (graph !! rec_path_id r) ++ [connection]]> graph)
      (filter (λ conn, conn ≠ (-1)%Z) (rec_connected_to r)) acc.2.
Proof. by destruct acc. Qed.

(** [graph.setdefault(path_id, []).append(connection)] for each of the
    connections [conns]. *)
Lemma setdefault_append_fold (p : Z) (conns : list Z) graph k :
  fold_left (λ graph connection,
               <[p := default [] (graph !! p) ++ [connection]]> graph)
            conns graph !! k
  = if decide (k = p) then
      match conns with
      | [] => graph !! p
      | _ => Some (default [] (graph !! p) ++ conns)
      end
    else graph !! k.
Proof.
  revert graph. induction conns as [|c conns IH]; intros graph; simpl.
  - by case_decide; subst.
  - rewrite IH. case_decide as Hk; [|by rewrite lookup_insert_ne].
    rewrite lookup_insert_eq. simpl. destruct conns; [done|].
    by rewrite <- app_assoc.
Qed.

Lemma records_of_snoc lanes_data r k :
  records_of (lanes_data ++ [r]) k
  = records_of lanes_data k ++ (if decide (rec_path_id r = k) then [r] else []).
Proof.
  unfold records_of. by rewrite filter_app.
Qed.

Lemma listed_successors_snoc lanes_data r k :
  listed_successors (lanes_data ++ [r]) k
  = listed_successors lanes_data k
    ++ (if decide (rec_path_id r = k)
        then filter (λ conn, conn ≠ (-1)%Z) (rec_connected_to r) else []).
Proof.
  unfold listed_successors. rewrite records_of_snoc, fmap_app, join_app.
  f_equal. case_decide; simpl; [by rewrite app_nil_r | done].
Qed.

(** What the adjacency dictionary holds under a key. *)
Lemma load_lane_graph_lookup lanes_data k :
  (load_lane_graph lanes_data).2 !! k
  = match listed_successors lanes_data k with
    | [] => None
    | conns => Some conns
    end.
Proof.
  induction lanes_data as [|r lanes_data IH] using rev_ind.
  - apply lookup_empty.
  - rewrite load_lane_graph_snoc, load_lane_step_graph, setdefault_append_fold.
    rewrite listed_successors_snoc.
    case_decide as Hk; [subst k|].
    + rewrite decide_True by done. rewrite IH.
      destruct (filter _ (rec_connected_to r)) as [|c conns];
        [by rewrite app_nil_r|].
      by destruct (listed_successors lanes_data (rec_path_id r)).
    + rewrite decide_False by done. by rewrite app_nil_r.
Qed.

(** X6: [graph.get(k, [])] on the adjacency dictionary that
    [load_lane_graph] returns is the list of the successors that the
    records with [path_id = k] list, in document order, without the
    sentinel -1. *)
Theorem load_lane_graph_adjacency lanes_data k :
  default [] ((load_lane_graph lanes_data).2 !! k)
  = listed_successors lanes_data k.
Proof.
  rewrite load_lane_graph_lookup.
  by destruct (listed_successors lanes_data k).
Qed.

Lemma listed_successors_no_sentinel lanes_data k :
  (-1)%Z ∉ listed_successors lanes_data k.
Proof.
  unfold listed_successors. intros Hin.
  apply list_elem_of_join in Hin as (conns & Hin & Hconns).
  apply list_elem_of_fmap in Hconns as (r & -> & _).
  by apply list_elem_of_filter in Hin as [Hne _].
Qed.

(** X7: no list of the adjacency dictionary holds the sentinel -1, and none
    is empty: a lane without a valid connection has no entry. *)
Theorem load_lane_graph_no_sentinel lanes_data k conns :
  (load_lane_graph lanes_data).2 !! k = Some conns →
  conns ≠ [] ∧ (-1)%Z ∉ conns.
Proof.
  rewrite load_lane_graph_lookup. intros Hk.
  pose proof (listed_successors_no_sentinel lanes_data k) as Hno.
  destruct (listed_successors lanes_data k); [done|].
  by injection Hk as <-.
Qed.

Lemma load_lane_graph_entries lanes_data k :
  entries (load_lane_graph lanes_data).1 !! k
  = lane_of_record <$> last (records_of lanes_data k).
Proof.
  induction lanes_data as [|r lanes_data IH] using rev_ind.
  - apply lookup_empty.
  - rewrite load_lane_graph_snoc, load_lane_step_dict, records_of_snoc.
    simpl. case_decide as Hk.
    + subst k. by rewrite lookup_insert_eq, last_snoc.
    + by rewrite lookup_insert_ne, app_nil_r.
Qed.

Lemma load_lane_graph_keys lanes_data :
  keys (load_lane_graph lanes_data).1
  = reverse (remove_dups (reverse (rec_path_id <$> lanes_data))).
Proof.
  induction lanes_data as [|r lanes_data IH] using rev_ind; [done|].
  rewrite load_lane_graph_snoc, load_lane_step_dict. simpl.
  rewrite fmap_app, reverse_app. simpl. rewrite IH.
  case_decide as Hin; case_decide as Hin'; try done.
  - exfalso. apply Hin'.
    by rewrite elem_of_reverse, elem_of_remove_dups in Hin.
  - exfalso. apply Hin. by rewrite elem_of_reverse, elem_of_remove_dups.
  - by rewrite reverse_cons.
Qed.

(** X8: the [lanes] dictionary that [load_lane_graph] returns holds, under
    each [path_id], the lane object made of the last record with that
    [path_id]; its keys are the [path_id]s of the document in the order of
    their first records. *)
Theorem load_lane_graph_lanes lanes_data :
  (∀ k, entries (load_lane_graph lanes_data).1 !! k
        = lane_of_record <$> last (records_of lanes_data k))
  ∧ keys (load_lane_graph lanes_data).1
    = reverse (remove_dups (reverse (rec_path_id <$> lanes_data))).
Proof.
  split; [apply load_lane_graph_entries | apply load_lane_graph_keys].
Qed.

Lemma records_of_path_id lanes_data k r :
  last (records_of lanes_data k) = Some r → rec_path_id r = k.
Proof.
  intros Hlast. assert (r ∈ records_of lanes_data k) as Hin.
  { apply last_Some in Hlast as [front ->]. apply elem_of_app. right.
    apply list_elem_of_here. }
  by apply list_elem_of_filter in Hin as [? _].
Qed.

(** X9: the dictionary is well formed: no key is listed twice, the keys
    listed are the keys that have an entry, and every lane object is stored
    under its own [path_id]. *)
Theorem load_lane_graph_well_formed lanes_data :
  let lanes := (load_lane_graph lanes_data).1 in
  NoDup (keys lanes)
  ∧ (∀ k, k ∈ keys lanes ↔ is_Some (entries lanes !! k))
  ∧ (∀ k lane, entries lanes !! k = Some lane → path_id lane = k).
Proof.
  intros lanes. subst lanes. rewrite load_lane_graph_keys. split; [|split].
  - rewrite reverse_Permutation. apply NoDup_remove_dups.
  - intros k. rewrite elem_of_reverse, elem_of_remove_dups, elem_of_reverse.
    rewrite load_lane_graph_entries, fmap_is_Some, last_is_Some.
    unfold records_of. split.
    + intros (r & -> & Hr)%list_elem_of_fmap Hnil.
      assert (r ∈ filter (λ r', rec_path_id r' = rec_path_id r) lanes_data)
        as Hin by by apply list_elem_of_filter.
      rewrite Hnil in Hin. by apply elem_of_nil in Hin.
    + intros Hne. destruct (filter _ lanes_data) as [|r rs] eqn:Hf; [done|].
      assert (r ∈ filter (λ r', rec_path_id r' = k) lanes_data) as Hin
        by (rewrite Hf; apply list_elem_of_here).
      apply list_elem_of_filter in Hin as [<- Hin].
      apply list_elem_of_fmap. eauto.
  - intros k lane. rewrite load_lane_graph_entries.
    intros (r & Hlast & ->)%fmap_Some. simpl.
    by eapply records_of_path_id.
Qed.

(** X10: the lane objects come out of [load_lane_graph] in the state that
    [reset_lane_states] sets: resetting them changes nothing. *)
Theorem reset_after_load lanes_data :
  reset_lane_states (entries (load_lane_graph lanes_data).1)
  = entries (load_lane_graph lanes_data).1.
Proof.
  apply map_eq. intros k. unfold reset_lane_states.
  rewrite lookup_fmap, load_lane_graph_entries.
  by destruct (last (records_of lanes_data k)).
Qed.

End LoadProperties.

(** ** find_closest_lane_node *)

Section ClosestLaneProperties.
Context {coord : Type} `{Countable coord}.
Variable geodesic : LatLon coord → LatLon coord → float.
Implicit Types (lanes : @LaneDict coord) (gps_point pt : point coord).

Lemma elem_of_centerline_points lanes k pt :
  (k, pt) ∈ centerline_points lanes
  ↔ k ∈ keys lanes ∧ ∃ lane, entries lanes !! k = Some lane ∧ pt ∈ center lane.
Proof.
  unfold centerline_points. rewrite list_elem_of_bind. split.
  - intros (k' & Hin & Hk'). destruct (entries lanes !! k') as [lane|] eqn:Hl.
    + apply list_elem_of_fmap in Hin as (pt' & [= -> ->] & Hpt). eauto.
    + by apply elem_of_nil in Hin.
  - intros (Hk & lane & Hl & Hpt). exists k. split; [|done].
    rewrite Hl. apply list_elem_of_fmap. eauto.
Qed.

(** The two nested loops visit [centerline_points] in order. *)
Lemma find_closest_lane_node_fold lanes gps_point :
  find_closest_lane_node geodesic lanes gps_point
  = (fold_left (λ acc kp, closest_point_step geodesic gps_point kp.1 acc kp.2)
               (centerline_points lanes) (None, infinity)).1.
Proof.
  unfold find_closest_lane_node, centerline_points. f_equal.
  generalize (@None Z, infinity).
  induction (keys lanes) as [|k ks IH]; intros acc; [done|].
  simpl. rewrite fold_left_app, IH. f_equal.
  destruct (entries lanes !! k) as [lane|]; [|done].
  generalize acc. clear.
  induction (center lane) as [|pt pts IH]; intros acc; [done|].
  simpl. by rewrite IH.
Qed.

Lemma closest_inv_step gps_point visited acc k pt :
  closest_inv geodesic gps_point visited acc →
  closest_inv geodesic gps_point (visited ++ [(k, pt)])
              (closest_point_step geodesic gps_point k acc pt).
Proof.
  destruct acc as [closest_lane min_distance]. intros [Hmin Hlane].
  unfold closest_point_step. simpl in *.
  destruct (PrimFloat.ltb _ min_distance) eqn:Hlt; split; simpl.
  - intros kp [Hkp | ->%list_elem_of_singleton]%elem_of_app.
    + eapply ltb_not_below; [by apply Hmin | done].
    + apply ltb_irrefl.
  - split.
    + destruct closest_lane as [k'|].
      * destruct Hlane as [Hinf _]. by eapply ltb_trans.
      * by subst min_distance.
    + exists pt. split; [|done]. apply elem_of_app. right.
      apply list_elem_of_here.
  - intros kp [Hkp | ->%list_elem_of_singleton]%elem_of_app; [by apply Hmin|].
    done.
  - destruct closest_lane as [k'|]; [|done].
    destruct Hlane as (Hinf & pt' & Hpt' & Hd). split; [done|].
    exists pt'. split; [|done]. apply elem_of_app. by left.
Qed.

Lemma closest_inv_fold gps_point visited acc points :
  closest_inv geodesic gps_point visited acc →
  closest_inv geodesic gps_point (visited ++ points)
    (fold_left (λ acc kp, closest_point_step geodesic gps_point kp.1 acc kp.2)
               points acc).
Proof.
  revert visited acc.
  induction points as [|[k pt] points IH]; intros visited acc Hinv; simpl.
  - by rewrite app_nil_r.
  - replace (visited ++ (k, pt) :: points)
      with ((visited ++ [(k, pt)]) ++ points) by (by rewrite <- app_assoc).
    by apply IH, closest_inv_step.
Qed.

Lemma closest_inv_result lanes gps_point :
  closest_inv geodesic gps_point (centerline_points lanes)
    (fold_left (λ acc kp, closest_point_step geodesic gps_point kp.1 acc kp.2)
               (centerline_points lanes) (None, infinity)).
Proof.
  apply (closest_inv_fold gps_point [] (None, infinity)).
  split; [|done]. intros kp Hkp. by apply elem_of_nil in Hkp.
Qed.

Lemma find_closest_lane_node_lane lanes gps_point k :
  find_closest_lane_node geodesic lanes gps_point = Some k →
  is_Some (entries lanes !! k).
Proof.
  rewrite find_closest_lane_node_fold. intros Hres.
  destruct (closest_inv_result lanes gps_point) as [_ Hlane].
  rewrite Hres in Hlane. destruct Hlane as (_ & pt & Hpt & _).
  apply elem_of_centerline_points in Hpt as (_ & lane & Hl & _). eauto.
Qed.

(** X11: the lane that [find_closest_lane_node] returns is a lane of the
    dictionary that owns a centerline point than which no centerline point
    of any lane is closer to the query point. *)
Theorem find_closest_lane_node_is_closest lanes gps_point k :
  find_closest_lane_node geodesic lanes gps_point = Some k →
  ∃ lane pt,
    k ∈ keys lanes ∧ entries lanes !! k = Some lane ∧ pt ∈ center lane
    ∧ ∀ k' lane' pt',
        k' ∈ keys lanes → entries lanes !! k' = Some lane' →
        pt' ∈ center lane' →
        PrimFloat.ltb (geodesic (reordered gps_point) (reordered pt'))
                      (geodesic (reordered gps_point) (reordered pt))
        = false.
Proof.
  rewrite find_closest_lane_node_fold. intros Hres.
  destruct (closest_inv_result lanes gps_point) as [Hmin Hlane].
  rewrite Hres in Hlane. destruct Hlane as (_ & pt & Hpt & Hd).
  apply elem_of_centerline_points in Hpt as (Hk & lane & Hl & Hpt).
  exists lane, pt. repeat split; try done.
  intros k' lane' pt' Hk' Hl' Hpt'. rewrite <- Hd.
  apply (Hmin (k', pt')), elem_of_centerline_points. eauto.
Qed.

(** X12: [find_closest_lane_node] returns [None] exactly when no centerline
    point of the dictionary is at a distance below infinity; so it does on
    a dictionary without lanes, or whose centerlines are all empty. *)
Theorem find_closest_lane_node_none lanes gps_point :
  find_closest_lane_node geodesic lanes gps_point = None
  ↔ ∀ k lane pt,
      k ∈ keys lanes → entries lanes !! k = Some lane → pt ∈ center lane →
      PrimFloat.ltb (geodesic (reordered gps_point) (reordered pt)) infinity
      = false.
Proof.
  rewrite find_closest_lane_node_fold.
  destruct (closest_inv_result lanes gps_point) as [Hmin Hlane].
  destruct (fold_left _ _ _) as [closest_lane min_distance]. simpl in *.
  split.
  - intros ->. subst min_distance. intros k lane pt Hk Hl Hpt.
    apply (Hmin (k, pt)), elem_of_centerline_points. eauto.
  - intros Hall. destruct closest_lane as [k|]; [|done].
    destruct Hlane as (Hinf & pt & Hpt & ->).
    apply elem_of_centerline_points in Hpt as (Hk & lane & Hl & Hpt).
    by rewrite (Hall k lane pt) in Hinf.
Qed.

End ClosestLaneProperties.

(** ** The search, continued *)

Section HeapqLength.
Context {A : Type}.
Variable lt : A → A → bool.
Implicit Types (heap : list A).

Lemma _siftdown_loop_length fuel heap startpos newitem pos :
  length (_siftdown_loop lt fuel heap startpos newitem pos) = length heap.
Proof.
  revert heap pos.
  induction fuel as [|fuel IH]; intros heap pos; cbn [_siftdown_loop].
  - apply length_insert.
  - case_decide; [|apply length_insert].
    destruct (heap !! ((pos - 1) / 2)) as [parent|]; [|apply length_insert].
    destruct (lt newitem parent); [|apply length_insert].
    by rewrite IH, length_insert.
Qed.

Lemma _siftdown_length heap startpos pos :
  length (_siftdown lt heap startpos pos) = length heap.
Proof.
  unfold _siftdown. destruct (heap !! pos); [|done].
  apply _siftdown_loop_length.
Qed.

Lemma _siftup_loop_length fuel heap endpos pos :
  length (_siftup_loop lt fuel heap endpos pos).1 = length heap.
Proof.
  revert heap pos.
  induction fuel as [|fuel IH]; intros heap pos; cbn [_siftup_loop];
    [done|].
  case_decide; [|done].
  set (childpos := match heap !! (2 * pos + 1) with
                   | Some _ => _ | None => _ end).
  destruct (heap !! childpos) as [child|]; [|done].
  by rewrite IH, length_insert.
Qed.

Lemma _siftup_length heap pos : length (_siftup lt heap pos) = length heap.
Proof.
  unfold _siftup. destruct (heap !! pos) as [newitem|]; [|done].
  pose proof (_siftup_loop_length (length heap) heap (length heap) pos)
    as Hlen.
  destruct (_siftup_loop lt (length heap) heap (length heap) pos)
    as [heap' pos'].
  by rewrite _siftdown_length, length_insert.
Qed.

(** A push adds one entry to the list, a pop takes one away. *)
Lemma heappush_length heap item :
  length (heappush lt heap item) = S (length heap).
Proof.
  unfold heappush. rewrite _siftdown_length, length_app. simpl. lia.
Qed.

Lemma heappop_length heap item heap' :
  heappop lt heap = Some (item, heap') → length heap = S (length heap').
Proof.
  unfold heappop. destruct (last heap) as [lastelt|] eqn:Hlast; [|done].
  apply last_Some in Hlast as [front ->].
  rewrite removelast_last, length_app. simpl.
  destruct front as [|returnitem front]; intros [= <- <-]; [done|].
  rewrite _siftup_length. simpl. lia.
Qed.

End HeapqLength.

Lemma heappush_nil {A : Type} (lt : A → A → bool) (item : A) :
  heappush lt [] item = [item].
Proof. reflexivity. Qed.

Lemma heappop_singleton {A : Type} (lt : A → A → bool) (item : A) :
  heappop lt [item] = Some (item, []).
Proof. reflexivity. Qed.

(** [heappop] raises only on the empty list. *)
Lemma heappop_None {A : Type} (lt : A → A → bool) (heap : list A) :
  heappop lt heap = None → heap = [].
Proof.
  unfold heappop. destruct (last heap) eqn:Hlast.
  - by destruct (removelast heap).
  - intros _. by apply last_None.
Qed.

Section SearchMore.
Context {coord : Type} `{Countable coord}.
Variable geodesic : LatLon coord → LatLon coord → float.
Implicit Types (st : @SearchState coord) (graph : gmap Z (list Z)).
Implicit Types (lns : gmap Z (@LaneNode coord)).

(** *** Parent chains *)

Lemma parent_chain_ends lns start_lane k path :
  parent_chain lns start_lane k path →
  head path = Some start_lane ∧ last path = Some k
  ∧ ∀ x, x ∈ path → is_Some (lns !! x).
Proof.
  induction 1 as [s Hs Hp | k lane p path Hk Hp Hchain (Hhead & Hlast & Hin)].
  - repeat split; try done. intros x ->%list_elem_of_singleton. eauto.
  - repeat split.
    + destruct path; [done|]. done.
    + apply last_snoc.
    + intros x [Hx | ->%list_elem_of_singleton]%elem_of_app; eauto.
Qed.

Lemma parent_chain_insert lns start_lane k path n lane :
  parent_chain lns start_lane k path → n ∉ path →
  parent_chain (<[n := lane]> lns) start_lane k path.
Proof.
  induction 1 as [s Hs Hp | k lane' p path Hk Hp Hchain IH]; intros Hn.
  - apply (parent_chain_start _ _ s); [|done].
    rewrite lookup_insert_ne; [done|]. intros ->. apply Hn.
    apply list_elem_of_here.
  - apply (parent_chain_step _ _ k lane' p); [|done|].
    + rewrite lookup_insert_ne; [done|]. intros ->. apply Hn.
      apply elem_of_app. right. apply list_elem_of_here.
    + apply IH. intros Hin. apply Hn. apply elem_of_app. by left.
Qed.

(** The reconstruction loop follows the parent chain to its end. *)
Lemma build_path_chain lns start_lane k path fuel acc :
  parent_chain lns start_lane k path → length path ≤ fuel →
  build_path fuel lns (Some k) acc = Some (acc ++ reverse path).
Proof.
  intros Hchain. revert fuel acc.
  induction Hchain as [s Hs Hp | k lane p path Hk Hp Hchain IH];
    intros fuel acc Hfuel.
  - destruct fuel as [|fuel]; [simpl in Hfuel; lia|]. simpl.
    rewrite Hs, Hp. by destruct fuel.
  - rewrite length_app in Hfuel. simpl in Hfuel.
    destruct fuel as [|fuel]; [lia|]. simpl. rewrite Hk, Hp.
    rewrite IH by lia. by rewrite reverse_snoc, <- app_assoc.
Qed.

Lemma chain_length_bound lns (path : list Z) :
  NoDup path → (∀ x, x ∈ path → is_Some (lns !! x)) →
  length path ≤ size lns.
Proof.
  intros Hnd Hin. rewrite <- size_dom.
  rewrite <- (size_list_to_set (C := gset Z) path) by done.
  apply subseteq_size. intros x Hx%elem_of_list_to_set.
  by apply elem_of_dom, Hin.
Qed.

Lemma default_last_cons (a b : Z) (path : list Z) :
  default a (last (b :: path)) = default b (last path).
Proof.
  revert a b. induction path as [|c path IH]; intros a b; [done|].
  change (last (b :: c :: path)) with (last (c :: path)).
  by rewrite (IH a c), (IH b c).
Qed.

Lemma connected_from_snoc graph a (path : list Z) n :
  connected_from graph a (path ++ [n])
  = connected_from graph a path
    && bool_decide (n ∈ default [] (graph !! default a (last path))).
Proof.
  revert a. induction path as [|b path IH]; intros a.
  - simpl. by rewrite andb_true_r.
  - cbn [app connected_from]. rewrite IH, andb_assoc.
    by rewrite default_last_cons.
Qed.

Lemma successor_connected_snoc graph (path : list Z) c n :
  last path = Some c →
  successor_connected graph (path ++ [n])
  = successor_connected graph path
    && bool_decide (n ∈ default [] (graph !! c)).
Proof.
  destruct path as [|a path]; [done|]. intros Hlast.
  cbn [app successor_connected]. rewrite connected_from_snoc.
  by rewrite <- (default_last_cons a a), Hlast.
Qed.

(** *** The loop invariant *)

Lemma total_centerline_length_insert lns n lane lane' (path : list Z) :
  lns !! n = Some lane →
  lane_length geodesic lane' = lane_length geodesic lane →
  total_centerline_length geodesic (<[n := lane']> lns) path
  = total_centerline_length geodesic lns path.
Proof.
  intros Hn Hlen. unfold total_centerline_length. f_equal.
  apply list_fmap_ext. intros i k _.
  destruct (decide (k = n)) as [-> | Hne].
  - by rewrite lookup_insert_eq, Hn.
  - by rewrite lookup_insert_ne.
Qed.

Lemma total_centerline_length_snoc lns (path : list Z) k lane :
  lns !! k = Some lane →
  total_centerline_length geodesic lns (path ++ [k])
  = (total_centerline_length geodesic lns path
     + lane_length geodesic lane)%float.
Proof.
  intros Hk. unfold total_centerline_length.
  by rewrite fmap_app, list_fmap_singleton, sum_floats_snoc, Hk.
Qed.

(** [reached] only reads the lane objects and [closed_set]; more closed
    lanes do not hurt. *)
Lemma reached_mono graph start_lane st st' k path :
  lanes st' = lanes st → closed_set st ⊆ closed_set st' →
  reached geodesic graph start_lane st k path →
  reached geodesic graph start_lane st' k path.
Proof.
  intros Hlanes Hclosed (Hchain & Hnd & Hconn & Hin & Hg).
  unfold reached. rewrite Hlanes. repeat split; try done.
  intros x Hx Hne. apply Hclosed. by apply Hin.
Qed.

(** A lane that is not closed lies on the path to no other lane. *)
Lemma reached_not_on_path graph start_lane st k path n :
  reached geodesic graph start_lane st k path →
  n ∉ closed_set st → n ≠ k → n ∉ path.
Proof.
  intros (_ & _ & _ & Hin & _) Hn Hne Hpath. apply Hn. by apply Hin.
Qed.

(** Writing the search fields of a lane that is not on the path. *)
Lemma reached_insert graph start_lane st st' k path n lane lane' :
  lanes st !! n = Some lane →
  lane_length geodesic lane' = lane_length geodesic lane →
  lanes st' = <[n := lane']> (lanes st) →
  closed_set st' = closed_set st →
  n ∉ closed_set st → n ≠ k →
  reached geodesic graph start_lane st k path →
  reached geodesic graph start_lane st' k path.
Proof.
  intros Hn Hlen Hlanes Hclosed Hopen Hne Hreached.
  pose proof (reached_not_on_path _ _ _ _ _ _ Hreached Hopen Hne) as Hpath.
  destruct Hreached as (Hchain & Hnd & Hconn & Hin & Hg).
  unfold reached. rewrite Hlanes, Hclosed. repeat split; try done.
  - by apply parent_chain_insert.
  - rewrite lookup_insert_ne by done.
    by rewrite (total_centerline_length_insert _ _ lane).
Qed.

Lemma expand_neighbor_inv graph start_lane goal_lane current st neighbor_id :
  current ∈ closed_set st →
  neighbor_id ∈ default [] (graph !! current) →
  search_inv geodesic graph start_lane goal_lane st →
  search_inv geodesic graph start_lane goal_lane
             (expand_neighbor geodesic goal_lane current st neighbor_id).
Proof.
  intros Hcurrent Hsucc Hinv.
  pose proof Hinv as (Hwf & Hgoal & Hreach).
  split; [by apply expand_neighbor_wf|]. split.
  { apply elem_of_dom. rewrite expand_neighbor_dom. by apply elem_of_dom. }
  unfold expand_neighbor. case_decide as Hclosed; [done|].
  destruct (lanes st !! neighbor_id) as [neighbor|] eqn:Hneighbor.
  2:{ intros k Hk. destruct (Hreach k Hk) as [path Hpath].
      exists path. by apply (reached_mono _ _ st). }
  destruct (lanes st !! current) as [cur|] eqn:Hcur; [|done].
  destruct (lanes st !! goal_lane) as [goal|] eqn:Hg; [|done].
  destruct (PrimFloat.ltb _ _) eqn:Hlt; [|done].
  set (lane' := set_search neighbor _ _ _ _).
  set (st' := {| lanes := _ |}).
  intros k Hk. destruct (decide (k = neighbor_id)) as [-> | Hne].
  - destruct (Hreach current (or_intror Hcurrent)) as [path Hpath].
    assert (neighbor_id ≠ current) as Hnc by (by intros ->).
    pose proof (reached_not_on_path _ _ _ _ _ _ Hpath Hclosed Hnc) as Hfresh.
    destruct Hpath as (Hchain & Hnd & Hconn & Hin & Hgc).
    destruct (parent_chain_ends _ _ _ _ Hchain) as (Hhead & Hlast & _).
    exists (path ++ [neighbor_id]). repeat split.
    + apply (parent_chain_step _ _ _ lane' current); simpl.
      * apply lookup_insert_eq.
      * done.
      * by apply parent_chain_insert.
    + apply NoDup_app. repeat split; [done| |apply NoDup_singleton].
      by intros x Hx ->%list_elem_of_singleton.
    + rewrite (successor_connected_snoc _ _ current) by done.
      rewrite Hconn. by apply bool_decide_eq_true.
    + intros x [Hx | ->%list_elem_of_singleton]%elem_of_app Hxn; [|done].
      simpl. destruct (decide (x = current)) as [-> | Hxc]; [done|].
      by apply Hin.
    + simpl. rewrite lookup_insert_eq. simpl.
      destruct path as [|a path]; [done|]. simpl.
      rewrite (total_centerline_length_snoc _ _ _ lane')
        by apply lookup_insert_eq.
      rewrite (total_centerline_length_insert _ _ neighbor) by done.
      rewrite Hcur in Hgc. simpl in Hgc. injection Hgc as <-. done.
  - assert (k ∈ open_list st ∨ k ∈ closed_set st) as Hk'.
    { destruct Hk as [Hk | Hk]; [|by right]. simpl in Hk.
      apply heappush_elem in Hk as [-> | Hk]; [done|by left]. }
    destruct (Hreach k Hk') as [path Hpath]. exists path.
    by apply (reached_insert _ _ st st' _ _ neighbor_id neighbor lane').
Qed.

Lemma expand_neighbors_inv graph start_lane goal_lane current neighbors st :
  current ∈ closed_set st →
  Forall (λ n, n ∈ default [] (graph !! current)) neighbors →
  search_inv geodesic graph start_lane goal_lane st →
  search_inv geodesic graph start_lane goal_lane
             (fold_left (expand_neighbor geodesic goal_lane current)
                        neighbors st).
Proof.
  revert st. induction neighbors as [|n neighbors IH];
    intros st Hcurrent Hsucc Hinv; [done|].
  apply Forall_cons in Hsucc as [Hn Hsucc]. simpl. apply IH; [|done|].
  - by rewrite expand_neighbor_closed_set.
  - by apply expand_neighbor_inv.
Qed.

Lemma close_current_inv graph start_lane goal_lane st current open_list' :
  search_inv geodesic graph start_lane goal_lane st →
  heappop (lane_lt (lanes st)) (open_list st) = Some (current, open_list') →
  search_inv geodesic graph start_lane goal_lane
             (close_current st current open_list').
Proof.
  intros (Hwf & Hgoal & Hreach) Hpop.
  split; [by apply close_current_wf|]. split; [done|].
  apply heappop_elem in Hpop as [Hcurrent Hrest].
  intros k Hk. assert (k ∈ open_list st ∨ k ∈ closed_set st) as Hk'.
  { destruct Hk as [Hk | Hk]; simpl in Hk; [left; by apply Hrest|].
    apply elem_of_union in Hk as [->%elem_of_singleton | Hk]; auto. }
  destruct (Hreach k Hk') as [path Hpath]. exists path.
  apply (reached_mono _ _ st); [done| |done]. simpl.
  apply union_subseteq_r.
Qed.

Lemma a_star_init_inv lns start_lane goal_lane s st graph :
  lns !! start_lane = Some s → parent s = None →
  a_star_init geodesic lns start_lane goal_lane = Some st →
  search_inv geodesic graph start_lane goal_lane st.
Proof.
  intros Hs Hparent Hinit.
  split; [by eapply a_star_init_wf|]. revert Hinit. unfold a_star_init.
  rewrite Hs. destruct (lns !! goal_lane) as [goal|] eqn:Hgoal; [|done].
  intros [= <-]. simpl. split.
  { apply elem_of_dom. rewrite dom_insert_L. apply elem_of_union. right.
    by apply elem_of_dom. }
  intros k [Hk | Hk]; [|by apply elem_of_empty in Hk].
  apply heappush_elem in Hk as [-> | Hk]; [|by apply elem_of_nil in Hk].
  exists [start_lane]. repeat split; simpl.
  - eapply parent_chain_start; [apply lookup_insert_eq|done].
  - apply NoDup_singleton.
  - intros x ->%list_elem_of_singleton Hne. done.
  - by rewrite lookup_insert_eq.
Qed.

Lemma a_star_step_inv graph start_lane goal_lane st st' :
  search_inv geodesic graph start_lane goal_lane st →
  a_star_step geodesic graph goal_lane st = inr st' →
  search_inv geodesic graph start_lane goal_lane st'.
Proof.
  intros Hinv. unfold a_star_step.
  destruct (heappop _ _) as [[current open_list']|] eqn:Hpop; [|done].
  case_decide; [by destruct (build_path _ _ _ _)|].
  intros [= <-]. apply expand_neighbors_inv.
  - simpl. apply elem_of_union. left. by apply elem_of_singleton.
  - by apply Forall_forall.
  - by apply close_current_inv.
Qed.

(** When the goal lane is popped, the path handed back is the one along
    which it was reached; the reconstruction never runs out of steps. *)
Lemma a_star_step_returns graph start_lane goal_lane st result :
  search_inv geodesic graph start_lane goal_lane st →
  a_star_step geodesic graph goal_lane st = inl result →
  (result = Returned None st ∧ open_list st = [])
  ∨ ∃ path open_list',
      result = Returned (Some path) (close_current st goal_lane open_list')
      ∧ reached geodesic graph start_lane
                (close_current st goal_lane open_list') goal_lane path.
Proof.
  intros Hinv. unfold a_star_step.
  destruct (heappop _ _) as [[current open_list']|] eqn:Hpop.
  2:{ intros [= <-]. left. split; [done|]. by eapply heappop_None. }
  case_decide as Hgoal; [subst current|done].
  pose proof (close_current_inv _ _ _ _ _ _ Hinv Hpop) as (Hwf & _ & Hreach).
  destruct (Hreach goal_lane) as [path Hpath].
  { right. simpl. apply elem_of_union. left. by apply elem_of_singleton. }
  pose proof Hpath as (Hchain & Hnd & _).
  destruct (parent_chain_ends _ _ _ _ Hchain) as (_ & _ & Hin).
  rewrite (build_path_chain _ _ _ _ _ _ Hchain).
  2:{ apply Nat.le_le_succ_r. by apply chain_length_bound. }
  intros [= <-]. right. exists path, open_list'.
  by rewrite reverse_involutive.
Qed.

(** Whatever holds of every state of the loop holds of the state in which
    the last iteration starts. *)
Lemma a_star_loop_last_step (I : @SearchState coord → Prop) graph goal_lane :
  (∀ st st', I st → a_star_step geodesic graph goal_lane st = inr st' →
             I st') →
  ∀ fuel st result,
    I st → a_star_loop geodesic fuel graph goal_lane st = result →
    result = OutOfFuel
    ∨ ∃ st_last, I st_last
        ∧ a_star_step geodesic graph goal_lane st_last = inl result.
Proof.
  intros Hstep. induction fuel as [|fuel IH]; intros st result Hst; simpl.
  - intros <-. by left.
  - destruct (a_star_step _ _ _ _) as [r|st'] eqn:Hs.
    + intros <-. right. by exists st.
    + apply IH. by eapply Hstep.
Qed.

(** *** The loop ends *)

Lemma relaxed_pair_ext st st' c n :
  lanes st' = lanes st → closed_set st ⊆ closed_set st' →
  relaxed_pair geodesic st c n → relaxed_pair geodesic st' c n.
Proof.
  intros Hlanes Hclosed [Hn | Hn]; unfold relaxed_pair; rewrite Hlanes.
  - left. by apply Hclosed.
  - by right.
Qed.

(** A successor that cannot be improved is left alone. *)
Lemma expand_neighbor_settled goal_lane current st m :
  relaxed_pair geodesic st current m →
  open_list (expand_neighbor geodesic goal_lane current st m) = open_list st
  ∧ lanes (expand_neighbor geodesic goal_lane current st m) = lanes st.
Proof.
  intros Hpair. unfold expand_neighbor. case_decide as Hclosed; [done|].
  destruct (lanes st !! m) as [nb|] eqn:Hm; [|done].
  destruct (lanes st !! current) as [cur|] eqn:Hc; [|done].
  destruct (lanes st !! goal_lane); [|done].
  destruct Hpair as [? | [? | (cur' & nb' & Hc' & Hm' & Hlt)]];
    [done|congruence|].
  rewrite Hc in Hc'. rewrite Hm in Hm'.
  injection Hc' as <-. injection Hm' as <-. by rewrite Hlt.
Qed.

Lemma expand_neighbors_settled goal_lane current neighbors st :
  Forall (relaxed_pair geodesic st current) neighbors →
  open_list (fold_left (expand_neighbor geodesic goal_lane current)
                       neighbors st) = open_list st
  ∧ lanes (fold_left (expand_neighbor geodesic goal_lane current)
                     neighbors st) = lanes st.
Proof.
  revert st. induction neighbors as [|m neighbors IH]; intros st Hall;
    [done|].
  apply Forall_cons in Hall as [Hm Hall]. simpl.
  destruct (expand_neighbor_settled goal_lane current st m Hm) as [Ho Hl].
  destruct (IH (expand_neighbor geodesic goal_lane current st m))
    as [Ho' Hl'].
  { eapply Forall_impl; [done|]. intros n. apply relaxed_pair_ext; [done|].
    by rewrite expand_neighbor_closed_set. }
  split; congruence.
Qed.

(** Lowering the cost of [m] leaves every closed lane unable to improve
    its successors. *)
Lemma relaxed_pair_lowered st st' c n m (cur nb : @LaneNode coord) h' f' p' :
  c ∈ closed_set st → m ∉ closed_set st →
  lanes st !! m = Some nb →
  PrimFloat.ltb (g cur + lane_length geodesic nb) (g nb) = true →
  lanes st'
  = <[m := set_search nb (g cur + lane_length geodesic nb) h' f' p']>
      (lanes st) →
  closed_set st' = closed_set st →
  relaxed_pair geodesic st c n → relaxed_pair geodesic st' c n.
Proof.
  intros Hc Hm Hnb Hlt Hlanes Hclosed Hpair.
  assert (c ≠ m) as Hcm by (by intros ->).
  unfold relaxed_pair. rewrite Hlanes, Hclosed.
  destruct Hpair as [Hn | [Hn | (cur' & nb' & Hc' & Hn' & Hlt')]].
  - by left.
  - right; left. rewrite lookup_insert_ne; [done|]. intros <-. congruence.
  - right; right. rewrite lookup_insert_ne by done.
    destruct (decide (n = m)) as [-> | Hnm].
    + rewrite Hnb in Hn'. injection Hn' as <-.
      eexists _, _. split; [done|]. split; [apply lookup_insert_eq|].
      simpl. by eapply ltb_not_below.
    + exists cur', nb'. by rewrite lookup_insert_ne.
Qed.

Lemma expand_neighbor_relaxed graph goal_lane current st handled m :
  search_wf st → is_Some (lanes st !! goal_lane) →
  current ∈ closed_set st →
  relaxed_but geodesic graph st current handled →
  relaxed_but geodesic graph
              (expand_neighbor geodesic goal_lane current st m)
              current (handled ++ [m]).
Proof.
  intros [Hwf _] [goal Hgoal] Hcur Hrel.
  assert (is_Some (lanes st !! current)) as [cur Hc].
  { by apply elem_of_dom, Hwf. }
  assert (∀ st', (∀ c : Z, c ∈ closed_set st' → c ∈ closed_set st) →
            (∀ c n : Z, c ∈ closed_set st →
                    relaxed_pair geodesic st c n →
                    relaxed_pair geodesic st' c n) →
            relaxed_pair geodesic st' current m →
            relaxed_but geodesic graph st' current (handled ++ [m]))
    as Hcases.
  { intros st' Hclosed Hold Hnew c n Hcc Hn Hor.
    destruct (decide (c = current)) as [-> | Hne].
    - destruct Hor as [? | [Hin | ->%list_elem_of_singleton]%elem_of_app];
        [done| |done].
      apply Hold; [done|]. apply Hrel; auto.
    - apply Hold; [by eapply Hclosed|]. apply Hrel; auto. }
  unfold expand_neighbor. case_decide as Hclosed.
  { apply Hcases; [done|done|by left]. }
  destruct (lanes st !! m) as [nb|] eqn:Hm.
  2:{ apply Hcases; [done| |by right; left].
      intros c n _. by apply relaxed_pair_ext. }
  rewrite Hc, Hgoal. destruct (PrimFloat.ltb _ _) eqn:Hlt.
  2:{ apply Hcases; [done|done|]. right; right. by exists cur, nb. }
  apply Hcases; [done| |].
  - intros c n Hcc. by eapply relaxed_pair_lowered.
  - right; right. simpl. eexists cur, _.
    rewrite lookup_insert_ne by (by intros ->).
    split; [done|]. split; [apply lookup_insert_eq|]. simpl.
    apply ltb_irrefl.
Qed.

Lemma expand_neighbors_relaxed graph goal_lane current neighbors st handled :
  search_wf st → is_Some (lanes st !! goal_lane) →
  current ∈ closed_set st →
  relaxed_but geodesic graph st current handled →
  relaxed_but geodesic graph
              (fold_left (expand_neighbor geodesic goal_lane current)
                         neighbors st)
              current (handled ++ neighbors).
Proof.
  revert st handled. induction neighbors as [|m neighbors IH];
    intros st handled Hwf Hgoal Hcur Hrel; simpl.
  - by rewrite app_nil_r.
  - replace (handled ++ m :: neighbors) with ((handled ++ [m]) ++ neighbors)
      by (by rewrite <- app_assoc).
    apply IH.
    + by apply expand_neighbor_wf.
    + apply elem_of_dom. rewrite expand_neighbor_dom. by apply elem_of_dom.
    + by rewrite expand_neighbor_closed_set.
    + by apply expand_neighbor_relaxed.
Qed.

Lemma a_star_step_relaxed graph goal_lane st st' :
  search_wf st → is_Some (lanes st !! goal_lane) →
  relaxed geodesic graph st →
  a_star_step geodesic graph goal_lane st = inr st' →
  relaxed geodesic graph st'.
Proof.
  intros Hwf Hgoal Hrel. unfold a_star_step.
  destruct (heappop _ _) as [[current open_list']|] eqn:Hpop; [|done].
  case_decide; [by destruct (build_path _ _ _ _)|].
  intros [= <-].
  pose proof (expand_neighbors_relaxed graph goal_lane current
                (default [] (graph !! current))
                (close_current st current open_list') []) as Hfold.
  intros c n Hcc Hn. apply Hfold; try done.
  - by apply close_current_wf.
  - simpl. apply elem_of_union. left. by apply elem_of_singleton.
  - intros c' n' Hcc' Hn' [Hne | Hin]; [|by apply elem_of_nil in Hin].
    simpl in Hcc'.
    apply elem_of_union in Hcc' as [->%elem_of_singleton | Hcc']; [done|].
    apply (relaxed_pair_ext st); [done| |by apply Hrel].
    simpl. apply union_subseteq_r.
  - destruct (decide (c = current)) as [-> | Hne]; [by right|by left].
Qed.

Lemma expand_neighbor_length goal_lane current st m :
  length (open_list (expand_neighbor geodesic goal_lane current st m))
  ≤ S (length (open_list st)).
Proof.
  unfold expand_neighbor. case_decide; [lia|].
  destruct (lanes st !! m); [|simpl; lia].
  destruct (lanes st !! current); [|lia].
  destruct (lanes st !! goal_lane); [|lia].
  destruct (PrimFloat.ltb _ _); [|lia]. simpl.
  rewrite heappush_length. lia.
Qed.

Lemma expand_neighbors_length goal_lane current neighbors st :
  length (open_list (fold_left (expand_neighbor geodesic goal_lane current)
                               neighbors st))
  ≤ length (open_list st) + length neighbors.
Proof.
  revert st. induction neighbors as [|m neighbors IH]; intros st; simpl;
    [lia|].
  pose proof (IH (expand_neighbor geodesic goal_lane current st m)).
  pose proof (expand_neighbor_length goal_lane current st m). lia.
Qed.

Lemma pending_cons graph (closed : gset Z) x keys :
  pending graph closed (x :: keys)
  = (if decide (x ∈ closed) then 0 else successor_count graph x)
    + pending graph closed keys.
Proof. done. Qed.

Lemma pending_mono graph (closed closed' : gset Z) keys :
  closed ⊆ closed' → pending graph closed' keys ≤ pending graph closed keys.
Proof.
  intros Hsub. induction keys as [|x keys IH]; [done|].
  rewrite !pending_cons. destruct (decide (x ∈ closed)) as [Hx | Hx].
  - rewrite decide_True by (by apply Hsub). lia.
  - case_decide; lia.
Qed.

Lemma pending_close graph (closed : gset Z) keys c :
  c ∈ keys → c ∉ closed →
  pending graph ({[c]} ∪ closed) keys + successor_count graph c
  ≤ pending graph closed keys.
Proof.
  intros Hc Hclosed.
  induction keys as [|x keys IH]; [by apply elem_of_nil in Hc|].
  rewrite !pending_cons. destruct (decide (x = c)) as [-> | Hne].
  - rewrite decide_True
      by (apply elem_of_union; left; by apply elem_of_singleton).
    rewrite decide_False by done.
    pose proof (pending_mono graph closed ({[c]} ∪ closed) keys
                  (union_subseteq_r _ _)). lia.
  - apply elem_of_cons in Hc as [-> | Hc]; [done|].
    specialize (IH Hc).
    destruct (decide (x ∈ closed)) as [Hx | Hx].
    + rewrite decide_True by (apply elem_of_union; by right). lia.
    + rewrite decide_False; [lia|].
      intros Hin. apply elem_of_union in Hin as [Hin | Hin]; [|done].
      by apply elem_of_singleton in Hin.
Qed.

Lemma pending_empty graph (lns : gmap Z (@LaneNode coord)) :
  pending graph ∅ (elements (dom lns)) = successor_entries graph lns.
Proof.
  unfold pending, successor_entries. by f_equal.
Qed.

(** Every iteration that does not return uses up some of the work left. *)
Lemma a_star_step_work_left graph goal_lane st st' :
  search_wf st → relaxed geodesic graph st →
  a_star_step geodesic graph goal_lane st = inr st' →
  work_left graph st' < work_left graph st.
Proof.
  intros Hwf Hrel. unfold a_star_step.
  destruct (heappop _ _) as [[current open_list']|] eqn:Hpop; [|done].
  case_decide; [by destruct (build_path _ _ _ _)|].
  intros [= <-]. unfold work_left.
  rewrite expand_neighbors_closed_set, expand_neighbors_dom. simpl.
  pose proof (heappop_length _ _ _ _ Hpop) as Hlen.
  destruct (heappop_elem _ _ _ _ Hpop) as [Hcurrent _].
  destruct (decide (current ∈ closed_set st)) as [Hclosed | Hclosed].
  - destruct (expand_neighbors_settled goal_lane current
                (default [] (graph !! current))
                (close_current st current open_list')) as [-> _].
    { apply Forall_forall. intros n Hn.
      apply (relaxed_pair_ext st); [done| |by apply Hrel].
      simpl. apply union_subseteq_r. }
    pose proof (pending_mono graph (closed_set st)
                  ({[current]} ∪ closed_set st)
                  (elements (dom (lanes st))) (union_subseteq_r _ _)).
    simpl. lia.
  - pose proof (expand_neighbors_length goal_lane current
                  (default [] (graph !! current))
                  (close_current st current open_list')) as Hpush.
    pose proof (pending_close graph (closed_set st)
                  (elements (dom (lanes st))) current) as Hpend.
    unfold successor_count in Hpend. simpl in Hpush.
    destruct Hwf as [_ Hopen].
    specialize (Hpend ltac:(by apply elem_of_elements, Hopen) Hclosed).
    lia.
Qed.

Lemma a_star_loop_returns graph start_lane goal_lane fuel st :
  search_inv geodesic graph start_lane goal_lane st →
  relaxed geodesic graph st →
  work_left graph st < fuel →
  ∃ result st',
    a_star_loop geodesic fuel graph goal_lane st = Returned result st'.
Proof.
  revert st. induction fuel as [|fuel IH]; intros st Hinv Hrel Hfuel;
    [lia|].
  simpl. destruct (a_star_step _ _ _ _) as [result|st'] eqn:Hstep.
  - destruct (a_star_step_returns _ _ _ _ _ Hinv Hstep)
      as [[-> _] | (path & open_list' & -> & _)]; eauto.
  - pose proof Hinv as (Hwf & Hgoal & _). apply IH.
    + by eapply a_star_step_inv.
    + by eapply a_star_step_relaxed.
    + pose proof (a_star_step_work_left _ _ _ _ Hwf Hrel Hstep). lia.
Qed.

(** *** What the search returns *)

Lemma geometry_insert lns n (lane lane' : @LaneNode coord) :
  lns !! n = Some lane → geometry lane' = geometry lane →
  geometry <$> <[n := lane']> lns = geometry <$> lns.
Proof.
  intros Hn Hg. rewrite fmap_insert, Hg. apply insert_id.
  by rewrite lookup_fmap, Hn.
Qed.

Lemma expand_neighbor_geometry goal_lane current st m :
  geometry <$> lanes (expand_neighbor geodesic goal_lane current st m)
  = geometry <$> lanes st.
Proof.
  unfold expand_neighbor. case_decide; [done|].
  destruct (lanes st !! m) as [neighbor|] eqn:Hm; [|done].
  destruct (lanes st !! current); [|done].
  destruct (lanes st !! goal_lane); [|done].
  destruct (PrimFloat.ltb _ _); [|done]. simpl.
  by apply (geometry_insert _ _ neighbor).
Qed.

Lemma expand_neighbors_geometry goal_lane current neighbors st :
  geometry <$> lanes (fold_left (expand_neighbor geodesic goal_lane current)
                                neighbors st)
  = geometry <$> lanes st.
Proof.
  revert st. induction neighbors as [|m neighbors IH]; intros st; [done|].
  simpl. by rewrite IH, expand_neighbor_geometry.
Qed.

Lemma a_star_step_geometry graph goal_lane st st' :
  a_star_step geodesic graph goal_lane st = inr st' →
  geometry <$> lanes st' = geometry <$> lanes st.
Proof.
  unfold a_star_step.
  destruct (heappop _ _) as [[current open_list']|]; [|done].
  case_decide; [by destruct (build_path _ _ _ _)|].
  intros [= <-]. by rewrite expand_neighbors_geometry.
Qed.

Lemma a_star_step_result_lanes graph goal_lane st result st' :
  a_star_step geodesic graph goal_lane st = inl (Returned result st') →
  lanes st' = lanes st.
Proof.
  unfold a_star_step.
  destruct (heappop _ _) as [[current open_list']|];
    [|intros ?; by simplify_eq].
  case_decide; [|done].
  destruct (build_path _ _ _ _); [|done]. intros ?. by simplify_eq.
Qed.

Lemma a_star_init_geometry lns start_lane goal_lane st :
  a_star_init geodesic lns start_lane goal_lane = Some st →
  geometry <$> lanes st = geometry <$> lns.
Proof.
  unfold a_star_init. destruct (lns !! start_lane) as [s|] eqn:Hs; [|done].
  destruct (lns !! goal_lane); [|done]. intros [= <-]. simpl.
  by apply (geometry_insert _ _ s).
Qed.

Lemma geometry_lane_length (lane lane' : @LaneNode coord) :
  geometry lane' = geometry lane →
  lane_length geodesic lane' = lane_length geodesic lane.
Proof. unfold lane_length. by intros [= _ -> -> ->]. Qed.

Lemma total_centerline_length_geometry lns lns' (path : list Z) :
  geometry <$> lns' = geometry <$> lns →
  total_centerline_length geodesic lns' path
  = total_centerline_length geodesic lns path.
Proof.
  intros Hgeo. unfold total_centerline_length. f_equal.
  apply list_fmap_ext. intros i k _.
  pose proof (f_equal (.!! k) Hgeo) as Hk. rewrite !lookup_fmap in Hk.
  destruct (lns' !! k) as [lane'|], (lns !! k) as [lane|]; try done.
  simpl in *. apply geometry_lane_length. congruence.
Qed.

(** What holds when the loop is entered and is kept by every iteration
    holds when the last iteration starts. *)
Lemma a_star_lane_level_last_step (I : @SearchState coord → Prop)
    fuel graph lns start_lane goal_lane result st :
  (∀ st0, a_star_init geodesic lns start_lane goal_lane = Some st0 → I st0) →
  (∀ st1 st2, I st1 →
     a_star_step geodesic graph goal_lane st1 = inr st2 → I st2) →
  a_star_lane_level geodesic fuel graph lns start_lane goal_lane
  = Returned result st →
  ∃ st_last, I st_last
    ∧ a_star_step geodesic graph goal_lane st_last
      = inl (Returned result st).
Proof.
  intros Hinit Hstep. unfold a_star_lane_level.
  destruct (a_star_init _ _ _ _) as [st0|] eqn:H0; [|done].
  intros Hloop.
  by destruct (a_star_loop_last_step I graph goal_lane Hstep fuel st0 _
                 (Hinit st0 eq_refl) Hloop) as [? | ?].
Qed.

Lemma a_star_lane_level_reached fuel graph lns start_lane goal_lane s path
    st :
  lns !! start_lane = Some s → parent s = None →
  a_star_lane_level geodesic fuel graph lns start_lane goal_lane
  = Returned (Some path) st →
  reached geodesic graph start_lane st goal_lane path
  ∧ goal_lane ∈ closed_set st
  ∧ geometry <$> lanes st = geometry <$> lns.
Proof.
  intros Hs Hparent Hres.
  set (I := λ st, (search_inv geodesic graph start_lane goal_lane st
                   ∧ geometry <$> lanes st = geometry <$> lns)).
  assert (∀ st0, a_star_init geodesic lns start_lane goal_lane = Some st0 →
                 I st0) as Hinit.
  { intros st0 H0.
    split; [by eapply a_star_init_inv|by eapply a_star_init_geometry]. }
  assert (∀ st1 st2, I st1 →
            a_star_step geodesic graph goal_lane st1 = inr st2 → I st2)
    as Hkeep.
  { intros st1 st2 [Hinv Hgeo] Hstep.
    split; [by eapply a_star_step_inv|].
    rewrite <- Hgeo. by eapply a_star_step_geometry. }
  destruct (a_star_lane_level_last_step I _ _ _ _ _ _ _ Hinit Hkeep Hres)
    as (st_last & [Hinv Hgeo] & Hstep).
  destruct (a_star_step_returns _ _ _ _ _ Hinv Hstep)
    as [[[=] _] | (path' & open_list' & [= -> ->] & Hreach)].
  split; [done|]. split; [|done].
  simpl. apply elem_of_union. left. by apply elem_of_singleton.
Qed.

(** X13: started from a lane whose parent is [None] (as after
    [reset_lane_states]), a lane path that [a_star_lane_level] returns
    begins with the start lane, ends with the goal lane, passes no lane
    twice, every lane of it after the first is listed in [graph] as a
    successor of the lane before it, and all its lanes are lane objects
    that the search has closed. *)
Theorem a_star_lane_level_path_valid fuel graph lns start_lane goal_lane s
    path st :
  lns !! start_lane = Some s → parent s = None →
  a_star_lane_level geodesic fuel graph lns start_lane goal_lane
  = Returned (Some path) st →
  head path = Some start_lane ∧ last path = Some goal_lane
  ∧ NoDup path ∧ successor_connected graph path = true
  ∧ ∀ k, k ∈ path → is_Some (lns !! k) ∧ k ∈ closed_set st.
Proof.
  intros Hs Hparent Hres.
  destruct (a_star_lane_level_reached _ _ _ _ _ _ _ _ Hs Hparent Hres)
    as ((Hchain & Hnd & Hconn & Hin & _) & Hgoal & Hgeo).
  destruct (parent_chain_ends _ _ _ _ Hchain) as (Hhead & Hlast & Hlanes).
  repeat split; try done.
  - pose proof (f_equal (.!! k) Hgeo) as Hk. rewrite !lookup_fmap in Hk.
    destruct (Hlanes k) as [lane Hlane]; [done|]. rewrite Hlane in Hk.
    by destruct (lns !! k).
  - destruct (decide (k = goal_lane)) as [-> | Hne]; [done|]. by apply Hin.
Qed.

(** X14: the cost [g] that the search leaves in the goal lane is the cost
    of the lane path it returns: the lengths of the lanes after the first,
    added from left to right. *)
Theorem a_star_lane_level_path_cost fuel graph lns start_lane goal_lane s
    path st :
  lns !! start_lane = Some s → parent s = None →
  a_star_lane_level geodesic fuel graph lns start_lane goal_lane
  = Returned (Some path) st →
  g <$> lanes st !! goal_lane
  = Some (total_centerline_length geodesic lns (tail path)).
Proof.
  intros Hs Hparent Hres.
  destruct (a_star_lane_level_reached _ _ _ _ _ _ _ _ Hs Hparent Hres)
    as ((_ & _ & _ & _ & Hg) & _ & Hgeo).
  by rewrite <- (total_centerline_length_geometry lns (lanes st)).
Qed.

Lemma a_star_init_relaxed graph lns start_lane goal_lane st0 :
  a_star_init geodesic lns start_lane goal_lane = Some st0 →
  relaxed geodesic graph st0.
Proof.
  unfold a_star_init. destruct (lns !! start_lane); [|done].
  destruct (lns !! goal_lane); [|done]. intros [= <-] c n Hc.
  by apply elem_of_empty in Hc.
Qed.

Lemma a_star_init_work_left graph lns start_lane goal_lane st0 :
  a_star_init geodesic lns start_lane goal_lane = Some st0 →
  work_left graph st0 = 1 + successor_entries graph lns.
Proof.
  unfold a_star_init. destruct (lns !! start_lane) as [s|] eqn:Hs; [|done].
  destruct (lns !! goal_lane); [|done]. intros [= <-].
  unfold work_left. cbn [open_list closed_set lanes].
  rewrite heappush_length, dom_insert_L. cbn [length].
  replace ({[start_lane]} ∪ dom lns) with (dom lns).
  - by rewrite pending_empty.
  - symmetry. apply subseteq_union_1_L, singleton_subseteq_l.
    by apply elem_of_dom.
Qed.

(** In the model without exceptions the loop returns within the bound. *)
Lemma a_star_init_returns fuel graph lns start_lane goal_lane s st0 :
  lns !! start_lane = Some s → parent s = None →
  a_star_init geodesic lns start_lane goal_lane = Some st0 →
  1 + successor_entries graph lns < fuel →
  ∃ result st,
    a_star_loop geodesic fuel graph goal_lane st0 = Returned result st.
Proof.
  intros Hs Hparent H0 Hfuel.
  apply (a_star_loop_returns graph start_lane).
  - by eapply a_star_init_inv.
  - by eapply a_star_init_relaxed.
  - by rewrite (a_star_init_work_left _ _ _ _ _ H0).
Qed.

Lemma state_at_iteration_work_left graph start_lane goal_lane n st0 st :
  search_inv geodesic graph start_lane goal_lane st0 →
  relaxed geodesic graph st0 →
  state_at_iteration geodesic n graph goal_lane st0 = Some st →
  search_inv geodesic graph start_lane goal_lane st
  ∧ relaxed geodesic graph st
  ∧ work_left graph st + n ≤ work_left graph st0.
Proof.
  revert st0. induction n as [|n IH]; intros st0 Hinv Hrel; simpl.
  - intros [= <-]. split; [done|]. split; [done|lia].
  - destruct (a_star_step _ _ _ _) as [|st1] eqn:Hstep; [done|].
    intros Hn. pose proof Hinv as (Hwf & Hgoal & _).
    pose proof (a_star_step_work_left _ _ _ _ Hwf Hrel Hstep) as Hless.
    destruct (IH st1 (a_star_step_inv _ _ _ _ _ Hinv Hstep)
                (a_star_step_relaxed _ _ _ _ Hwf Hgoal Hrel Hstep) Hn)
      as (Hinv' & Hrel' & Hwork).
    split; [done|]. split; [done|lia].
Qed.

(** X15: neither loop of [a_star_lane_level] runs on.  Entered with a
    start lane whose parent is [None], the [while] loop comes back to its
    head at most once more than there are successor entries of lane
    objects in [graph]: every iteration pops an entry, and only the first
    expansion of a lane pushes any, although lanes are pushed again when
    their cost is lowered.  And whenever the goal lane is popped, the
    reconstruction loop reaches the parent [None] within as many steps as
    there are lane objects.  (Nothing is said here of the iteration
    returning: a call of [geodesic] in it may raise.) *)
Theorem a_star_lane_level_loops_bounded graph lns start_lane goal_lane s
    st0 n st :
  lns !! start_lane = Some s → parent s = None →
  a_star_init geodesic lns start_lane goal_lane = Some st0 →
  state_at_iteration geodesic n graph goal_lane st0 = Some st →
  n ≤ 1 + successor_entries graph lns
  ∧ a_star_step geodesic graph goal_lane st ≠ inl OutOfFuel.
Proof.
  intros Hs Hparent H0 Hn.
  destruct (state_at_iteration_work_left graph start_lane goal_lane n st0 st)
    as (Hinv & _ & Hwork); [by eapply a_star_init_inv| |done|].
  { by eapply a_star_init_relaxed. }
  rewrite (a_star_init_work_left _ _ _ _ _ H0) in Hwork.
  split; [lia|]. intros Hstep.
  by destruct (a_star_step_returns _ _ _ _ _ Hinv Hstep)
    as [[? _] | (path & open_list' & ? & _)].
Qed.

Lemma a_star_lane_level_geometry fuel graph lns start_lane goal_lane
    result st :
  a_star_lane_level geodesic fuel graph lns start_lane goal_lane
  = Returned result st →
  geometry <$> lanes st = geometry <$> lns.
Proof.
  intros Hres.
  set (I := λ st : @SearchState coord,
              (geometry <$> lanes st = geometry <$> lns)).
  assert (∀ st0, a_star_init geodesic lns start_lane goal_lane = Some st0 →
                 I st0) as Hinit.
  { intros st0 H0. by eapply a_star_init_geometry. }
  assert (∀ st1 st2, I st1 →
            a_star_step geodesic graph goal_lane st1 = inr st2 → I st2)
    as Hkeep.
  { intros st1 st2 Hgeo Hstep. unfold I.
    rewrite <- Hgeo. by eapply a_star_step_geometry. }
  destruct (a_star_lane_level_last_step I _ _ _ _ _ _ _ Hinit Hkeep Hres)
    as (st_last & Hgeo & Hstep).
  apply a_star_step_result_lanes in Hstep. by rewrite Hstep.
Qed.

(** X16: the search writes only the fields [g], [h], [f] and [parent]:
    whatever it returns, the lane objects are the same keys with the same
    [path_id], start point, end point and centerline as before. *)
Theorem a_star_lane_level_keeps_geometry fuel graph lns start_lane goal_lane
    result st k :
  a_star_lane_level geodesic fuel graph lns start_lane goal_lane
  = Returned result st →
  geometry <$> lanes st !! k = geometry <$> lns !! k.
Proof.
  intros Hres. rewrite <- !lookup_fmap.
  by rewrite (a_star_lane_level_geometry _ _ _ _ _ _ _ Hres).
Qed.

Lemma a_star_step_closed_set graph goal_lane st st' :
  a_star_step geodesic graph goal_lane st = inr st' →
  ∃ current open_list',
    heappop (lane_lt (lanes st)) (open_list st) = Some (current, open_list')
    ∧ current ≠ goal_lane
    ∧ closed_set st' = {[current]} ∪ closed_set st
    ∧ dom (lanes st') = dom (lanes st).
Proof.
  unfold a_star_step.
  destruct (heappop _ _) as [[current open_list']|]; [|done].
  case_decide; [by destruct (build_path _ _ _ _)|].
  intros [= <-]. exists current, open_list'.
  by rewrite expand_neighbors_closed_set, expand_neighbors_dom.
Qed.

(** X17: when the search returns [None], the open list is empty, the start
    lane is closed, the goal lane is not, and no closed lane can improve a
    successor: each successor listed for a closed lane is closed itself, or
    names no lane object, or has a [g] that the closed lane's [g] plus the
    successor's length is not below. *)
Theorem a_star_lane_level_none_exhausted fuel graph lns start_lane goal_lane
    st :
  a_star_lane_level geodesic fuel graph lns start_lane goal_lane
  = Returned None st →
  open_list st = [] ∧ start_lane ∈ closed_set st
  ∧ (goal_lane ∉ closed_set st) ∧ relaxed geodesic graph st.
Proof.
  intros Hres.
  set (I := λ st : @SearchState coord,
              (search_wf st ∧ is_Some (lanes st !! goal_lane)
               ∧ relaxed geodesic graph st
               ∧ (start_lane ∈ closed_set st ∨ open_list st = [start_lane])
               ∧ goal_lane ∉ closed_set st)).
  assert (∀ st0, a_star_init geodesic lns start_lane goal_lane = Some st0 →
                 I st0) as Hinit.
  { intros st0 H0. split; [by eapply a_star_init_wf|].
    unfold a_star_init in H0.
    destruct (lns !! start_lane) as [s|] eqn:Hs; [|done].
    destruct (lns !! goal_lane) as [goal|] eqn:Hgoal; [|done].
    injection H0 as <-. cbn [open_list closed_set lanes].
    rewrite heappush_nil. repeat split.
    - apply elem_of_dom. rewrite dom_insert_L. apply elem_of_union. right.
      by apply elem_of_dom.
    - intros c n Hc. by apply elem_of_empty in Hc.
    - by right.
    - apply not_elem_of_empty. }
  assert (∀ st1 st2, I st1 →
            a_star_step geodesic graph goal_lane st1 = inr st2 → I st2)
    as Hkeep.
  { intros st1 st2 (Hwf & Hgoal & Hrel & Hstart & Hopen) Hstep.
    destruct (a_star_step_closed_set _ _ _ _ Hstep)
      as (current & open_list' & Hpop & Hne & Hclosed & Hdom).
    split; [by eapply a_star_step_wf|]. split.
    { apply elem_of_dom. rewrite Hdom. by apply elem_of_dom. }
    split; [by eapply a_star_step_relaxed|]. rewrite Hclosed. split.
    - left. apply elem_of_union. destruct Hstart as [Hstart | Hstart].
      + by right.
      + rewrite Hstart, heappop_singleton in Hpop. injection Hpop as <- _.
        left. by apply elem_of_singleton.
    - intros [Hin%elem_of_singleton | Hin]%elem_of_union; [|done].
      by apply Hne. }
  destruct (a_star_lane_level_last_step I _ _ _ _ _ _ _ Hinit Hkeep Hres)
    as (st_last & (Hwf & Hgoal & Hrel & Hstart & Hopen) & Hstep).
  revert Hstep. unfold a_star_step.
  destruct (heappop _ _) as [[current open_list']|] eqn:Hpop.
  { case_decide; [|done]. by destruct (build_path _ _ _ _). }
  intros [= <-]. apply heappop_None in Hpop.
  repeat split; try done.
  destruct Hstart as [Hstart | Hstart]; [done|]. by rewrite Hpop in Hstart.
Qed.

(** X18: when the start lane is the goal lane (and its parent is [None]),
    a call that returns has returned the one-lane path in its first
    iteration: no successor is expanded, nothing is logged, only the start
    lane is closed, and no other lane object is written. *)
Theorem a_star_lane_level_start_is_goal fuel graph lns start_lane s result
    st :
  lns !! start_lane = Some s → parent s = None →
  a_star_lane_level geodesic fuel graph lns start_lane start_lane
  = Returned result st →
  result = Some [start_lane]
  ∧ closed_set st = {[start_lane]} ∧ open_list st = [] ∧ log st = []
  ∧ ∀ k, k ≠ start_lane → lanes st !! k = lns !! k.
Proof.
  intros Hs Hparent. unfold a_star_lane_level, a_star_init. rewrite Hs.
  destruct fuel as [|fuel]; [done|].
  cbn [a_star_loop]. unfold a_star_step. cbn [open_list closed_set lanes].
  rewrite heappush_nil, heappop_singleton.
  rewrite decide_True by done. cbn [build_path close_current lanes].
  rewrite lookup_insert_eq. cbn [parent set_search].
  rewrite Hparent.
  replace (build_path (size (<[start_lane:=_]> lns)) _ None
                      ([] ++ [start_lane]))
    with (Some [start_lane]) by (by destruct (size _)).
  intros [= <- <-]. unfold close_current.
  cbn [open_list closed_set lanes log]. repeat split.
  - apply union_empty_r_L.
  - intros k Hk. by rewrite lookup_insert_ne.
Qed.

(** *** The warnings *)

Lemma expand_neighbor_log goal_lane current st m n :
  WarnLaneNotFound n
    ∈ log (expand_neighbor geodesic goal_lane current st m)
  ↔ WarnLaneNotFound n ∈ log st
    ∨ (n = m ∧ (n ∉ closed_set st) ∧ lanes st !! n = None).
Proof.
  unfold expand_neighbor. case_decide as Hclosed.
  { split; [by left|]. by intros [? | (-> & ? & _)]. }
  destruct (lanes st !! m) as [neighbor|] eqn:Hm.
  - assert (WarnLaneNotFound n ∈ log st
            ∨ n = m ∧ (n ∉ closed_set st) ∧ lanes st !! n = None
            ↔ WarnLaneNotFound n ∈ log st) as ->.
    { split; [|by left]. intros [? | (-> & _ & ?)]; [done|congruence]. }
    destruct (lanes st !! current); [|done].
    destruct (lanes st !! goal_lane); [|done].
    by destruct (PrimFloat.ltb _ _).
  - simpl. rewrite elem_of_app, list_elem_of_singleton. split.
    + intros [? | [= ->]]; [by left|by right].
    + intros [? | (-> & _ & _)]; [by left|by right].
Qed.

Lemma expand_neighbors_log goal_lane current neighbors st n :
  WarnLaneNotFound n
    ∈ log (fold_left (expand_neighbor geodesic goal_lane current)
                     neighbors st)
  ↔ WarnLaneNotFound n ∈ log st
    ∨ (n ∈ neighbors ∧ (n ∉ closed_set st) ∧ lanes st !! n = None).
Proof.
  revert st. induction neighbors as [|m neighbors IH]; intros st; simpl.
  - split; [by left|]. intros [? | (Hn & _)]; [done|].
    by apply elem_of_nil in Hn.
  - rewrite IH, expand_neighbor_log, expand_neighbor_closed_set.
    rewrite <- !not_elem_of_dom, expand_neighbor_dom, elem_of_cons.
    split.
    + intros [[? | (-> & ? & ?)] | (? & ? & ?)]; auto.
    + intros [? | ([-> | ?] & ? & ?)]; auto.
Qed.

(** X19: the warnings logged are exactly the identifiers that name no lane
    object and are listed as a successor of a lane that was expanded (a
    closed lane other than the goal lane): no warning is spurious and no
    dangling successor of an expanded lane goes unreported. *)
Theorem a_star_lane_level_log_exact fuel graph lns start_lane goal_lane
    result st n :
  a_star_lane_level geodesic fuel graph lns start_lane goal_lane
  = Returned result st →
  WarnLaneNotFound n ∈ log st
  ↔ lns !! n = None
    ∧ ∃ c, c ∈ closed_set st ∧ c ≠ goal_lane
           ∧ n ∈ default [] (graph !! c).
Proof.
  intros Hres.
  set (I := λ st : @SearchState coord,
              (search_wf st ∧ (goal_lane ∉ closed_set st)
               ∧ dom (lanes st) = dom lns
               ∧ ∀ n, WarnLaneNotFound n ∈ log st
                      ↔ lns !! n = None
                        ∧ ∃ c, c ∈ closed_set st
                               ∧ n ∈ default [] (graph !! c))).
  assert (∀ st0, a_star_init geodesic lns start_lane goal_lane = Some st0 →
                 I st0) as Hinit.
  { intros st0 H0. split; [by eapply a_star_init_wf|].
    unfold a_star_init in H0.
    destruct (lns !! start_lane) as [s|] eqn:Hs; [|done].
    destruct (lns !! goal_lane) as [goal|] eqn:Hgoal; [|done].
    injection H0 as <-. cbn [closed_set lanes log].
    split; [apply not_elem_of_empty|]. split.
    { rewrite dom_insert_L. apply subseteq_union_1_L, singleton_subseteq_l.
      by apply elem_of_dom. }
    intros m. split.
    - by intros Hm%elem_of_nil.
    - intros (_ & c & Hc & _). by apply elem_of_empty in Hc. }
  assert (∀ st1 st2, I st1 →
            a_star_step geodesic graph goal_lane st1 = inr st2 → I st2)
    as Hkeep.
  { intros st1 st2 (Hwf & Hgoal & Hdom & Hlog) Hstep.
    split; [by eapply a_star_step_wf|].
    destruct (a_star_step_closed_set _ _ _ _ Hstep)
      as (current & open_list' & Hpop & Hne & Hclosed & Hdom').
    rewrite Hclosed, Hdom'. split.
    { intros [Hin%elem_of_singleton | Hin]%elem_of_union; [|done].
      by apply Hne. }
    split; [done|].
    intros m. revert Hstep. unfold a_star_step. rewrite Hpop.
    rewrite decide_False by done. intros [= <-].
    rewrite expand_neighbors_log. cbn [close_current log closed_set lanes].
    rewrite Hlog. rewrite <- !not_elem_of_dom, Hdom.
    destruct Hwf as [Hsub Hopen].
    pose proof (heappop_elem _ _ _ _ Hpop) as [Hcur _].
    split.
    - intros [(Hm & c & Hc & Hin) | (Hin & Hm & Hnone)].
      + split; [done|]. exists c. split; [|done].
        apply elem_of_union. by right.
      + split; [done|]. exists current. split; [|done].
        apply elem_of_union. left. by apply elem_of_singleton.
    - intros (Hm & c & Hc & Hin).
      apply elem_of_union in Hc as [->%elem_of_singleton | Hc].
      + right. split; [done|]. split; [|done].
        intros Hmc. apply Hm. rewrite <- Hdom.
        apply elem_of_union in Hmc as [->%elem_of_singleton | Hmc];
          [by apply Hopen|by apply Hsub].
      + left. split; [done|]. by exists c. }
  destruct (a_star_lane_level_last_step I _ _ _ _ _ _ _ Hinit Hkeep Hres)
    as (st_last & (Hwf & Hgoal & Hdom & Hlog) & Hstep).
  revert Hstep. unfold a_star_step.
  destruct (heappop _ _) as [[current open_list']|] eqn:Hpop.
  - case_decide as Hcur; [subst current|done].
    destruct (build_path _ _ _ _); [|done]. intros ?. simplify_eq.
    cbn [close_current log closed_set]. rewrite Hlog. split.
    + intros (Hn & c & Hc & Hin). split; [done|]. exists c.
      split; [apply elem_of_union; by right|]. split; [|done]. by intros ->.
    + intros (Hn & c & Hc & Hne & Hin). split; [done|]. exists c.
      split; [|done].
      by apply elem_of_union in Hc as [Hc%elem_of_singleton | Hc].
  - intros ?. simplify_eq. rewrite Hlog. split.
    + intros (Hn & c & Hc & Hin). split; [done|]. exists c.
      split; [done|]. split; [|done]. by intros ->.
    + intros (Hn & c & Hc & Hne & Hin). split; [done|]. by exists c.
Qed.

End SearchMore.

(** ** The planner node *)

Section PlannerNodeProperties.
Context {coord : Type} `{Countable coord}.
Variable geodesic : LatLon coord → LatLon coord → float.
Implicit Types (lns : gmap Z (@LaneNode coord)) (d : @LaneDict coord).
Implicit Types (pt : point coord).

Lemma reset_lane_states_keeps_geometry lns :
  geometry <$> reset_lane_states lns = geometry <$> lns.
Proof.
  unfold reset_lane_states. rewrite <- map_fmap_compose.
  apply map_fmap_ext. by intros k [].
Qed.

Lemma reset_lane_states_geometry lns lns' :
  geometry <$> lns' = geometry <$> lns →
  reset_lane_states lns' = reset_lane_states lns.
Proof.
  intros Hgeo. apply map_eq. intros k. unfold reset_lane_states.
  pose proof (f_equal (.!! k) Hgeo) as Hk. rewrite !lookup_fmap in Hk.
  rewrite !lookup_fmap.
  destruct (lns' !! k) as [lane'|], (lns !! k) as [lane|]; try done.
  simpl in *. injection Hk as Hid Hstart Hend Hcenter.
  unfold set_search. by rewrite Hid, Hstart, Hend, Hcenter.
Qed.

Lemma geometry_lookup lns lns' k (lane' : @LaneNode coord) :
  geometry <$> lns' = geometry <$> lns → lns' !! k = Some lane' →
  ∃ lane, lns !! k = Some lane ∧ center lane = center lane'.
Proof.
  intros Hgeo Hk'. pose proof (f_equal (.!! k) Hgeo) as Hk.
  rewrite !lookup_fmap, Hk' in Hk.
  destruct (lns !! k) as [lane|]; [|done]. exists lane. split; [done|].
  simpl in Hk. by injection Hk.
Qed.

Lemma elem_of_extract_centerline_path lns (lane_path : list Z) pt :
  pt ∈ extract_centerline_path lns lane_path →
  ∃ k lane, k ∈ lane_path ∧ lns !! k = Some lane ∧ pt ∈ center lane.
Proof.
  unfold extract_centerline_path.
  assert (∀ composite,
            pt ∈ fold_left
                   (λ composite k,
                      match lns !! k with
                      | Some lane => composite ++ center lane
                      | None => composite
                      end) lane_path composite →
            pt ∈ composite
            ∨ ∃ k lane, k ∈ lane_path ∧ lns !! k = Some lane
                        ∧ pt ∈ center lane) as Hfold.
  { induction lane_path as [|k lane_path IH]; intros composite; simpl;
      [by left|].
    intros [Hpt | (k' & lane & Hk' & Hl & Hpt)]%IH.
    - destruct (lns !! k) as [lane|] eqn:Hl; [|by left].
      apply elem_of_app in Hpt as [Hpt | Hpt]; [by left|].
      right. exists k, lane. split; [apply list_elem_of_here|done].
    - right. exists k', lane. split; [by apply list_elem_of_further|done]. }
  intros [Hpt | Hpt]%Hfold; [by apply elem_of_nil in Hpt|done].
Qed.

Lemma remove_cycles_from_path_NoDup (path : list (point coord)) :
  NoDup (remove_cycles_from_path path).
Proof.
  unfold remove_cycles_from_path.
  apply (cycles_inv_fold path 0 (∅, [])).
  repeat split; simpl; [apply NoDup_nil_2 | | lia].
  intros pt Hpt. by apply elem_of_nil in Hpt.
Qed.

(** X20: what [try_compute_path] publishes does not depend on the search
    fields the lane objects hold when it is called: two dictionaries with
    the same keys, in the same order, and the same [path_id], start point,
    end point and centerline under every key give the same result.  With
    X16: what one search leaves behind does not influence the next call. *)
Theorem try_compute_path_ignores_search_fields fuel d d' graph start_gps
    goal_gps :
  keys d' = keys d →
  geometry <$> entries d' = geometry <$> entries d →
  try_compute_path geodesic fuel d' graph start_gps goal_gps
  = try_compute_path geodesic fuel d graph start_gps goal_gps.
Proof.
  intros Hkeys Hgeo. unfold try_compute_path.
  by rewrite Hkeys, (reset_lane_states_geometry _ _ Hgeo).
Qed.

Lemma extract_centerline_path_geometry lns lns' (lane_path : list Z) :
  geometry <$> lns' = geometry <$> lns →
  extract_centerline_path lns' lane_path
  = extract_centerline_path lns lane_path.
Proof.
  intros Hgeo. unfold extract_centerline_path.
  generalize (@nil (point coord)).
  induction lane_path as [|k lane_path IH]; intros composite; [done|].
  simpl. rewrite <- IH. f_equal.
  pose proof (f_equal (.!! k) Hgeo) as Hk. rewrite !lookup_fmap in Hk.
  destruct (lns' !! k) as [lane'|], (lns !! k) as [lane|]; try done.
  simpl in Hk. injection Hk as _ _ _ Hcenter. by rewrite Hcenter.
Qed.

(** X21: what [try_compute_path] publishes follows a lane path of the
    map.  There is a lane sequence that begins with the lane found nearest
    the start point and ends with the lane found nearest the goal point,
    passes no lane twice and goes from each lane to a successor listed for
    it in [graph]; the path published is the loop-free form of the
    centerlines of its lanes but the last, in that order, followed by the
    truncated centerline of the goal lane, all taken from the map as it
    was loaded. *)
Theorem try_compute_path_follows_lane_path fuel d graph start_gps goal_gps
    pts :
  try_compute_path geodesic fuel d graph (Some start_gps) (Some goal_gps)
  = Path pts →
  let reset := {| entries := reset_lane_states (entries d);
                  keys := keys d |} in
  ∃ start_lane goal_lane goal lane_path,
    find_closest_lane_node geodesic reset start_gps = Some start_lane
    ∧ find_closest_lane_node geodesic reset goal_gps = Some goal_lane
    ∧ entries d !! goal_lane = Some goal
    ∧ head lane_path = Some start_lane ∧ last lane_path = Some goal_lane
    ∧ NoDup lane_path ∧ successor_connected graph lane_path = true
    ∧ pts = remove_cycles_from_path
              (extract_centerline_path (entries d) (removelast lane_path)
               ++ truncate_goal_lane geodesic (center goal) goal_gps
                                     0x1.999999999999ap-4 5).
Proof.
  intros Hpub reset. unfold try_compute_path in Hpub. fold reset in Hpub.
  revert Hpub.
  destruct (find_closest_lane_node geodesic reset start_gps)
    as [start_lane|] eqn:Hstart; [|done].
  destruct (find_closest_lane_node geodesic reset goal_gps)
    as [goal_lane|] eqn:Hgoal; [|done].
  destruct (a_star_lane_level _ _ _ _ _ _) as [[[|a lane_path]|] st| |]
    eqn:Hres; try done.
  destruct (lanes st !! goal_lane) as [goal'|] eqn:Hgl; [|done].
  intros [= <-].
  pose proof (find_closest_lane_node_lane _ _ _ _ Hstart) as [s Hs].
  cbn [entries reset] in Hs, Hres.
  assert (parent s = None) as Hparent.
  { unfold reset_lane_states in Hs. rewrite lookup_fmap in Hs.
    destruct (entries d !! start_lane); [|done]. by injection Hs as <-. }
  destruct (a_star_lane_level_reached _ _ _ _ _ _ _ _ _ Hs Hparent Hres)
    as ((Hchain & Hnd & Hconn & _) & _ & Hgeo).
  destruct (parent_chain_ends _ _ _ _ Hchain) as (Hhead & Hlast & _).
  rewrite reset_lane_states_keeps_geometry in Hgeo.
  destruct (geometry_lookup _ _ goal_lane goal' Hgeo Hgl)
    as (goal & Hg & Hcenter).
  exists start_lane, goal_lane, goal, (a :: lane_path).
  repeat split; try done.
  unfold assemble_centerline.
  by rewrite (extract_centerline_path_geometry _ _ _ Hgeo), Hcenter.
Qed.

(** X22: a path that [try_compute_path] publishes is not empty and has no
    point twice; each of its points is the goal point or a centerline
    point of a lane of the map; and it ends at the goal point whenever the
    goal point is not itself a centerline point of a lane of the map. *)
Theorem try_compute_path_published fuel d graph start_gps goal_gps pts :
  try_compute_path geodesic fuel d graph (Some start_gps) (Some goal_gps)
  = Path pts →
  pts ≠ [] ∧ NoDup pts
  ∧ (∀ pt, pt ∈ pts →
       pt = goal_gps
       ∨ ∃ k lane, entries d !! k = Some lane ∧ pt ∈ center lane)
  ∧ ((∀ k lane, entries d !! k = Some lane → goal_gps ∉ center lane) →
     last pts = Some goal_gps).
Proof.
  unfold try_compute_path.
  set (d' := {| entries := reset_lane_states (entries d);
                keys := keys d |}).
  destruct (find_closest_lane_node geodesic d' start_gps)
    as [start_lane|]; [|done].
  destruct (find_closest_lane_node geodesic d' goal_gps)
    as [goal_lane|]; [|done].
  destruct (a_star_lane_level _ _ _ _ _ _) as [[[|a lane_path]|] st| |]
    eqn:Hres; try done.
  destruct (lanes st !! goal_lane) as [goal|] eqn:Hgoal; [|done].
  intros [= <-].
  apply a_star_lane_level_geometry in Hres. cbn [entries d'] in Hres.
  rewrite reset_lane_states_keeps_geometry in Hres.
  assert (∀ k lane pt, lanes st !! k = Some lane → pt ∈ center lane →
            ∃ lane0, entries d !! k = Some lane0 ∧ pt ∈ center lane0)
    as Hmap.
  { intros k lane pt Hk Hpt.
    destruct (geometry_lookup _ _ k lane Hres Hk) as (lane0 & Hl0 & Hc).
    exists lane0. by rewrite Hc. }
  split; [apply assemble_centerline_nonempty|].
  split; [apply remove_cycles_from_path_NoDup|].
  unfold assemble_centerline.
  destruct (truncate_goal_lane_shape geodesic (center goal) goal_gps
              0x1.999999999999ap-4 5) as (n & _ & ->).
  set (composite := extract_centerline_path _ _).
  assert (∀ pt, pt ∈ composite ++ take n (center goal) →
            ∃ k lane, entries d !! k = Some lane ∧ pt ∈ center lane)
    as Hfront.
  { intros pt [Hpt | Hpt]%elem_of_app.
    - apply elem_of_extract_centerline_path in Hpt
        as (k & lane & _ & Hk & Hpt).
      destruct (Hmap k lane pt Hk Hpt) as (lane0 & ? & ?). eauto.
    - apply subseteq_take in Hpt.
      destruct (Hmap goal_lane goal pt Hgoal Hpt) as (lane0 & ? & ?).
      eauto. }
  rewrite app_assoc. split.
  - intros pt Hpt.
    apply (elem_of_sublist _ (composite ++ take n (center goal)
                              ++ [goal_gps])) in Hpt.
    + rewrite app_assoc in Hpt.
      apply elem_of_app in Hpt as [Hpt | ->%list_elem_of_singleton];
        [right; by apply Hfront|by left].
    + rewrite app_assoc.
      apply (remove_cycles_fold_sublist _ [] (∅, [])). simpl. constructor.
  - intros Hfresh. apply remove_cycles_keeps_fresh_endpoint.
    intros (k & lane & Hk & Hpt)%Hfront. by apply (Hfresh k lane).
Qed.

End PlannerNodeProperties.

(** ** The call with its exceptions *)

Section CheckedProperties.
Context {coord : Type} `{Countable coord}.
Variable geodesic : LatLon coord → LatLon coord → float.
Variable accepts : LatLon coord → bool.
Implicit Types (st : @SearchState coord) (graph : gmap Z (list Z)).
Implicit Types (lns : gmap Z (@LaneNode coord)).

(** *** A call that raises nothing computes what is described above *)

Lemma geodesic_meters_Ok p q d :
  Checked.geodesic_meters geodesic accepts p q = Ok d → d = geodesic p q.
Proof.
  unfold Checked.geodesic_meters. destruct (accepts p && accepts q); [|done].
  by intros [= <-].
Qed.

Lemma lane_length_fold_Raise (pts : list (point coord)) (l : list nat) e :
  fold_left
    (λ total i,
       match pts !! (i - 1), pts !! i with
       | Some p, Some q =>
           total ← total;
           d ← Checked.geodesic_meters geodesic accepts (reordered p)
                                       (reordered q);
           Ok (total + d)%float
       | _, _ => total
       end) l (Raise e)
  = Raise e.
Proof.
  induction l as [|i l IH]; [done|]. simpl.
  by destruct (pts !! (i - 1)), (pts !! i).
Qed.

Lemma lane_length_fold_Ok (pts : list (point coord)) (l : list nat) x d :
  fold_left
    (λ total i,
       match pts !! (i - 1), pts !! i with
       | Some p, Some q =>
           total ← total;
           d ← Checked.geodesic_meters geodesic accepts (reordered p)
                                       (reordered q);
           Ok (total + d)%float
       | _, _ => total
       end) l (Ok x)
  = Ok d →
  d = fold_left
        (λ total i,
           match pts !! (i - 1), pts !! i with
           | Some p, Some q =>
               (total + geodesic (reordered p) (reordered q))%float
           | _, _ => total
           end) l x.
Proof.
  revert x. induction l as [|i l IH]; intros x; simpl.
  - by intros [= <-].
  - destruct (pts !! (i - 1)) as [p|], (pts !! i) as [q|]; try apply IH.
    cbn. unfold Checked.geodesic_meters.
    destruct (accepts (reordered p) && accepts (reordered q)); cbn.
    + apply IH.
    + by rewrite lane_length_fold_Raise.
Qed.

Lemma lane_length_Ok (lane : @LaneNode coord) d :
  Checked.lane_length geodesic accepts lane = Ok d →
  d = lane_length geodesic lane.
Proof.
  unfold Checked.lane_length, lane_length. case_decide.
  - apply geodesic_meters_Ok.
  - apply lane_length_fold_Ok.
Qed.

Lemma heuristic_Ok (a b : @LaneNode coord) d :
  Checked.heuristic geodesic accepts a b = Ok d →
  d = heuristic geodesic a b.
Proof. apply geodesic_meters_Ok. Qed.

Lemma expand_neighbor_Ok goal_lane current st neighbor_id st' :
  Checked.expand_neighbor geodesic accepts goal_lane current st neighbor_id
  = Ok st' →
  st' = expand_neighbor geodesic goal_lane current st neighbor_id.
Proof.
  unfold Checked.expand_neighbor, expand_neighbor.
  case_decide; [by intros [= <-]|].
  destruct (lanes st !! neighbor_id) as [neighbor|]; [|by intros [= <-]].
  destruct (lanes st !! current) as [cur|]; [|by intros [= <-]].
  destruct (lanes st !! goal_lane) as [goal|]; [|by intros [= <-]].
  destruct (Checked.lane_length geodesic accepts neighbor)
    as [travel_cost|] eqn:Hlen; [|done].
  apply lane_length_Ok in Hlen as ->. cbn.
  destruct (PrimFloat.ltb _ _); [|by intros [= <-]].
  destruct (Checked.heuristic geodesic accepts neighbor goal)
    as [h'|] eqn:Hh; [|done].
  apply heuristic_Ok in Hh as ->. cbn. by intros [= <-].
Qed.

Lemma expand_neighbors_Raise goal_lane current (neighbors : list Z) e :
  fold_left (λ acc neighbor_id,
               st ← acc;
               Checked.expand_neighbor geodesic accepts goal_lane current st
                                       neighbor_id)
            neighbors (Raise e)
  = Raise e.
Proof. by induction neighbors. Qed.

Lemma expand_neighbors_Ok goal_lane current neighbors st st' :
  Checked.expand_neighbors geodesic accepts goal_lane current neighbors st
  = Ok st' →
  st' = fold_left (expand_neighbor geodesic goal_lane current) neighbors st.
Proof.
  unfold Checked.expand_neighbors. revert st.
  induction neighbors as [|n neighbors IH]; intros st; simpl.
  - by intros [= <-].
  - cbn.
    destruct (Checked.expand_neighbor geodesic accepts goal_lane current st n)
      as [st1|] eqn:Hn.
    + apply expand_neighbor_Ok in Hn as ->. apply IH.
    + by rewrite expand_neighbors_Raise.
Qed.

Lemma a_star_step_Ok graph goal_lane st step :
  Checked.a_star_step geodesic accepts graph goal_lane st = Ok step →
  a_star_step geodesic graph goal_lane st = step.
Proof.
  unfold Checked.a_star_step, a_star_step.
  destruct (heappop _ _) as [[current open_list']|]; [|by intros [= <-]].
  case_decide.
  - by destruct (build_path _ _ _ _); intros [= <-].
  - destruct (Checked.expand_neighbors _ _ _ _ _ _) as [st'|] eqn:Hfold;
      [|done].
    apply expand_neighbors_Ok in Hfold as ->. cbn. by intros [= <-].
Qed.

Lemma a_star_loop_Ok fuel graph goal_lane st ended :
  Checked.a_star_loop geodesic accepts fuel graph goal_lane st = Ok ended →
  a_star_loop geodesic fuel graph goal_lane st = ended.
Proof.
  revert st. induction fuel as [|fuel IH]; intros st; simpl.
  - by intros [= <-].
  - destruct (Checked.a_star_step geodesic accepts graph goal_lane st)
      as [step|] eqn:Hstep; [|done].
    apply a_star_step_Ok in Hstep as <-. cbn.
    destruct (a_star_step geodesic graph goal_lane st) as [r|st1];
      [by intros [= <-]|apply IH].
Qed.

Lemma a_star_init_Ok lns start_lane goal_lane init :
  Checked.a_star_init geodesic accepts lns start_lane goal_lane = Ok init →
  a_star_init geodesic lns start_lane goal_lane = init.
Proof.
  unfold Checked.a_star_init, a_star_init.
  destruct (lns !! start_lane) as [s|]; [|by intros [= <-]].
  destruct (lns !! goal_lane) as [goal|]; [|by intros [= <-]].
  destruct (Checked.heuristic geodesic accepts s goal) as [f'|] eqn:Hh;
    [|done].
  apply heuristic_Ok in Hh as ->. cbn. by intros [= <-].
Qed.

(** X23: a call of [a_star_lane_level] in which [geodesic] raises nothing
    ends as the description without exceptions says: what is proved of
    the latter holds of every call that does not raise. *)
Theorem a_star_lane_level_without_exception fuel graph lns start_lane
    goal_lane ended :
  Checked.a_star_lane_level geodesic accepts fuel graph lns start_lane
                            goal_lane
  = Ok ended →
  a_star_lane_level geodesic fuel graph lns start_lane goal_lane = ended.
Proof.
  unfold Checked.a_star_lane_level, a_star_lane_level.
  destruct (Checked.a_star_init geodesic accepts lns start_lane goal_lane)
    as [init|] eqn:Hinit; [|done].
  apply a_star_init_Ok in Hinit as <-. cbn.
  destruct (a_star_init geodesic lns start_lane goal_lane) as [st0|];
    [|by intros [= <-]].
  apply a_star_loop_Ok.
Qed.

(** *** A map that geopy accepts *)

Lemma geodesic_meters_accepted p q :
  accepts p = true → accepts q = true →
  Checked.geodesic_meters geodesic accepts p q = Ok (geodesic p q).
Proof. unfold Checked.geodesic_meters. by intros -> ->. Qed.

Lemma lane_length_fold_accepted (pts : list (point coord)) (l : list nat) x :
  Forall (λ p, accepts (reordered p) = true) pts →
  fold_left
    (λ total i,
       match pts !! (i - 1), pts !! i with
       | Some p, Some q =>
           total ← total;
           d ← Checked.geodesic_meters geodesic accepts (reordered p)
                                       (reordered q);
           Ok (total + d)%float
       | _, _ => total
       end) l (Ok x)
  = Ok (fold_left
          (λ total i,
             match pts !! (i - 1), pts !! i with
             | Some p, Some q =>
                 (total + geodesic (reordered p) (reordered q))%float
             | _, _ => total
             end) l x).
Proof.
  intros Hpts. revert x. induction l as [|i l IH]; intros x; [done|].
  simpl. destruct (pts !! (i - 1)) as [p|] eqn:Hp; [|apply IH].
  destruct (pts !! i) as [q|] eqn:Hq; [|apply IH].
  rewrite geodesic_meters_accepted.
  - cbn. apply IH.
  - by apply (Forall_lookup_1 _ _ _ _ Hpts Hp).
  - by apply (Forall_lookup_1 _ _ _ _ Hpts Hq).
Qed.

Lemma lane_length_accepted (lane : @LaneNode coord) :
  lane_accepted accepts lane →
  Checked.lane_length geodesic accepts lane
  = Ok (lane_length geodesic lane).
Proof.
  intros (_ & _ & Hstart & Hend & Hcenter).
  unfold Checked.lane_length, lane_length. case_decide.
  - by apply geodesic_meters_accepted.
  - by apply lane_length_fold_accepted.
Qed.

Lemma heuristic_accepted (a b : @LaneNode coord) :
  lane_accepted accepts a → lane_accepted accepts b →
  Checked.heuristic geodesic accepts a b = Ok (heuristic geodesic a b).
Proof.
  intros (_ & Hend & _) (Hstart & _).
  by apply geodesic_meters_accepted.
Qed.

Lemma map_accepted_geometry lns lns' :
  geometry <$> lns' = geometry <$> lns →
  map_accepted accepts lns → map_accepted accepts lns'.
Proof.
  intros Hgeo Hmap k lane' Hk'.
  pose proof (f_equal (.!! k) Hgeo) as Hk. rewrite !lookup_fmap, Hk' in Hk.
  destruct (lns !! k) as [lane|] eqn:Hl; [|done].
  specialize (Hmap k lane Hl). simpl in Hk.
  injection Hk as _ Hstart Hend Hcenter. unfold lane_accepted.
  by rewrite Hstart, Hend, Hcenter.
Qed.

Lemma expand_neighbor_accepted goal_lane current st neighbor_id :
  map_accepted accepts (lanes st) →
  Checked.expand_neighbor geodesic accepts goal_lane current st neighbor_id
  = Ok (expand_neighbor geodesic goal_lane current st neighbor_id).
Proof.
  intros Hmap. unfold Checked.expand_neighbor, expand_neighbor.
  case_decide; [done|].
  destruct (lanes st !! neighbor_id) as [neighbor|] eqn:Hn; [|done].
  destruct (lanes st !! current) as [cur|]; [|done].
  destruct (lanes st !! goal_lane) as [goal|] eqn:Hg; [|done].
  rewrite (lane_length_accepted neighbor) by by eapply Hmap. cbn.
  destruct (PrimFloat.ltb _ _); [|done].
  rewrite (heuristic_accepted neighbor goal) by by eapply Hmap. done.
Qed.

Lemma expand_neighbors_accepted goal_lane current neighbors st :
  map_accepted accepts (lanes st) →
  Checked.expand_neighbors geodesic accepts goal_lane current neighbors st
  = Ok (fold_left (expand_neighbor geodesic goal_lane current) neighbors st).
Proof.
  unfold Checked.expand_neighbors. revert st.
  induction neighbors as [|n neighbors IH]; intros st Hmap; [done|].
  simpl. cbn. rewrite expand_neighbor_accepted by done. apply IH.
  eapply map_accepted_geometry; [|done].
  apply expand_neighbor_geometry.
Qed.

Lemma a_star_step_accepted graph goal_lane st :
  map_accepted accepts (lanes st) →
  Checked.a_star_step geodesic accepts graph goal_lane st
  = Ok (a_star_step geodesic graph goal_lane st).
Proof.
  intros Hmap. unfold Checked.a_star_step, a_star_step.
  destruct (heappop _ _) as [[current open_list']|]; [|done].
  case_decide; [by destruct (build_path _ _ _ _)|].
  by rewrite expand_neighbors_accepted.
Qed.

Lemma a_star_loop_accepted fuel graph goal_lane st :
  map_accepted accepts (lanes st) →
  Checked.a_star_loop geodesic accepts fuel graph goal_lane st
  = Ok (a_star_loop geodesic fuel graph goal_lane st).
Proof.
  revert st. induction fuel as [|fuel IH]; intros st Hmap; [done|].
  simpl. rewrite a_star_step_accepted by done. cbn.
  destruct (a_star_step _ _ _ _) as [r|st1] eqn:Hstep; [done|].
  apply IH. eapply map_accepted_geometry; [|done].
  by eapply a_star_step_geometry.
Qed.

Lemma a_star_lane_level_accepted fuel graph lns start_lane goal_lane :
  map_accepted accepts lns →
  Checked.a_star_lane_level geodesic accepts fuel graph lns start_lane
                            goal_lane
  = Ok (a_star_lane_level geodesic fuel graph lns start_lane goal_lane).
Proof.
  intros Hmap. unfold Checked.a_star_lane_level, a_star_lane_level.
  assert (Checked.a_star_init geodesic accepts lns start_lane goal_lane
          = Ok (a_star_init geodesic lns start_lane goal_lane)) as ->.
  { unfold Checked.a_star_init, a_star_init.
    destruct (lns !! start_lane) as [s|] eqn:Hs; [|done].
    destruct (lns !! goal_lane) as [goal|] eqn:Hg; [|done].
    by rewrite (heuristic_accepted s goal) by by eapply Hmap. }
  cbn. destruct (a_star_init _ _ _ _) as [st0|] eqn:H0; [|done].
  apply a_star_loop_accepted. eapply map_accepted_geometry; [|done].
  by eapply a_star_init_geometry.
Qed.

(** X24: on a map all of whose points geopy accepts, in both orders in
    which the program passes them, [a_star_lane_level] raises nothing and
    returns: started from a lane whose parent is [None], with a goal lane
    that is a lane object, within one iteration more than there are
    successor entries of lane objects in [graph], plus one. *)
Theorem a_star_lane_level_accepted_returns fuel graph lns start_lane
    goal_lane s :
  map_accepted accepts lns →
  lns !! start_lane = Some s → parent s = None →
  is_Some (lns !! goal_lane) →
  1 + successor_entries graph lns < fuel →
  ∃ result st,
    Checked.a_star_lane_level geodesic accepts fuel graph lns start_lane
                              goal_lane
    = Ok (Returned result st).
Proof.
  intros Hmap Hs Hparent [goal Hgoal] Hfuel.
  rewrite a_star_lane_level_accepted by done. unfold a_star_lane_level.
  destruct (a_star_init geodesic lns start_lane goal_lane) as [st0|] eqn:H0.
  - destruct (a_star_init_returns geodesic fuel graph lns start_lane
                goal_lane s st0 Hs Hparent H0 Hfuel) as (result & st & ->).
    eauto.
  - unfold a_star_init in H0. by rewrite Hs, Hgoal in H0.
Qed.

(** X25: [heuristic(start_lane, goal_lane)] is called before the loop, with
    the points as they are stored, (lon, lat): when geopy does not accept
    the end point of the start lane or the start point of the goal lane
    read in that order, the call raises [ValueError], whatever the graph;
    and it returns nothing before. *)
Theorem a_star_lane_level_raises fuel graph lns start_lane goal_lane s goal :
  lns !! start_lane = Some s → lns !! goal_lane = Some goal →
  accepts (as_passed (end_ s)) && accepts (as_passed (start goal)) = false →
  Checked.a_star_lane_level geodesic accepts fuel graph lns start_lane
                            goal_lane
  = Raise ValueError.
Proof.
  intros Hs Hgoal Hrejected.
  unfold Checked.a_star_lane_level, Checked.a_star_init. rewrite Hs, Hgoal.
  unfold Checked.heuristic, Checked.geodesic_meters. by rewrite Hrejected.
Qed.

End CheckedProperties.

(** ** Sample runs, continued *)

Lemma truncate_goal_lane_zero_length_witness :
  truncate_goal_lane grid_geodesic [diag 1; diag 1] (diag 3)
                     0x1.999999999999ap-4 5
  = [diag 3].
Proof.
  apply (truncate_goal_lane_zero_length grid_geodesic [diag 1; diag 1]).
  apply Forall_cons. split; [by vm_compute|apply Forall_nil_2].
Defined.

Lemma load_lane_graph_no_sentinel_witness :
  (load_lane_graph detour_map).2 !! 4%Z = Some [2; 3; 5]%Z
  ∧ [2; 3; 5]%Z ≠ [] ∧ (-1)%Z ∉ [2; 3; 5]%Z.
Proof.
  split; [by vm_compute|].
  apply (load_lane_graph_no_sentinel detour_map 4). by vm_compute.
Defined.

Lemma load_lane_graph_well_formed_witness :
  entries (load_lane_graph detour_map).1 !! 4%Z
  = Some (LaneNode_init 4 (diag 14) (diag 4) [diag 14; diag 4])
  ∧ path_id (LaneNode_init 4 (diag 14) (diag 4) [diag 14; diag 4]) = 4%Z.
Proof.
  split; [by vm_compute|].
  apply (load_lane_graph_well_formed detour_map). by vm_compute.
Defined.

Lemma find_closest_lane_node_is_closest_witness :
  find_closest_lane_node grid_geodesic (load_lane_graph crossing_map).1 at_X
  = Some 2%Z
  ∧ ∃ lane pt,
      2%Z ∈ keys (load_lane_graph crossing_map).1
      ∧ entries (load_lane_graph crossing_map).1 !! 2%Z = Some lane
      ∧ pt ∈ center lane
      ∧ ∀ k' lane' pt',
          k' ∈ keys (load_lane_graph crossing_map).1 →
          entries (load_lane_graph crossing_map).1 !! k' = Some lane' →
          pt' ∈ center lane' →
          PrimFloat.ltb (grid_geodesic (reordered at_X) (reordered pt'))
                        (grid_geodesic (reordered at_X) (reordered pt))
          = false.
Proof.
  split; [by vm_compute|].
  apply (find_closest_lane_node_is_closest grid_geodesic
           (load_lane_graph crossing_map).1 at_X 2).
  by vm_compute.
Defined.

Lemma find_closest_lane_node_none_witness :
  find_closest_lane_node grid_geodesic {| entries := ∅; keys := [] |} at_S
  = None.
Proof.
  apply find_closest_lane_node_none. intros k lane pt Hk.
  by apply elem_of_nil in Hk.
Defined.

Lemma a_star_lane_level_path_valid_witness :
  ∃ st,
    a_star_lane_level grid_geodesic 3 dangling_graph dangling_lanes 0 1
    = Returned (Some [0; 1]%Z) st
    ∧ NoDup [0; 1]%Z
    ∧ successor_connected dangling_graph [0; 1]%Z = true
    ∧ ∀ k, k ∈ [0; 1]%Z →
           is_Some (dangling_lanes !! k) ∧ k ∈ closed_set st.
Proof.
  eexists. split; [by vm_compute|].
  apply (a_star_lane_level_path_valid grid_geodesic 3 dangling_graph
           dangling_lanes 0 1
           (LaneNode_init 0 (diag 0) (diag 1) [diag 0; diag 1])
           [0; 1]%Z); by vm_compute.
Defined.

Lemma a_star_lane_level_path_cost_witness :
  ∃ st,
    a_star_lane_level grid_geodesic 3 dangling_graph dangling_lanes 0 1
    = Returned (Some [0; 1]%Z) st
    ∧ g <$> lanes st !! 1%Z
      = Some (total_centerline_length grid_geodesic dangling_lanes [1%Z]).
Proof.
  eexists. split; [by vm_compute|].
  apply (a_star_lane_level_path_cost grid_geodesic 3 dangling_graph
           dangling_lanes 0 1
           (LaneNode_init 0 (diag 0) (diag 1) [diag 0; diag 1])
           [0; 1]%Z); by vm_compute.
Defined.

Lemma a_star_lane_level_loops_bounded_witness :
  ∃ st0 st,
    a_star_init grid_geodesic dangling_lanes 0 1 = Some st0
    ∧ state_at_iteration grid_geodesic 1 dangling_graph 1 st0 = Some st
    ∧ 1 ≤ 1 + successor_entries dangling_graph dangling_lanes
    ∧ a_star_step grid_geodesic dangling_graph 1 st ≠ inl OutOfFuel.
Proof.
  eexists _, _. split; [by vm_compute|]. split; [by vm_compute|].
  eapply (a_star_lane_level_loops_bounded grid_geodesic dangling_graph
            dangling_lanes 0 1
            (LaneNode_init 0 (diag 0) (diag 1) [diag 0; diag 1]));
    by vm_compute.
Defined.

Lemma a_star_lane_level_keeps_geometry_witness :
  ∃ st,
    a_star_lane_level grid_geodesic 3 dangling_graph dangling_lanes 0 1
    = Returned (Some [0; 1]%Z) st
    ∧ geometry <$> lanes st !! 1%Z = geometry <$> dangling_lanes !! 1%Z.
Proof.
  eexists. split; [by vm_compute|].
  apply (a_star_lane_level_keeps_geometry grid_geodesic 3 dangling_graph
           dangling_lanes 0 1 (Some [0; 1]%Z)).
  by vm_compute.
Defined.

Lemma a_star_lane_level_none_exhausted_witness :
  ∃ st,
    a_star_lane_level grid_geodesic 3 dangling_graph dangling_lanes 1 0
    = Returned None st
    ∧ open_list st = [] ∧ 1%Z ∈ closed_set st
    ∧ (0%Z ∉ closed_set st) ∧ relaxed grid_geodesic dangling_graph st.
Proof.
  eexists. split; [by vm_compute|].
  apply (a_star_lane_level_none_exhausted grid_geodesic 3 dangling_graph
           dangling_lanes 1 0).
  by vm_compute.
Defined.

Lemma a_star_lane_level_start_is_goal_witness :
  ∃ st,
    a_star_lane_level grid_geodesic 1 dangling_graph dangling_lanes 0 0
    = Returned (Some [0%Z]) st
    ∧ Some [0%Z] = Some [0%Z]
    ∧ closed_set st = {[0%Z]} ∧ open_list st = [] ∧ log st = []
    ∧ ∀ k, k ≠ 0%Z → lanes st !! k = dangling_lanes !! k.
Proof.
  eexists. split; [by vm_compute|].
  apply (a_star_lane_level_start_is_goal grid_geodesic 1 dangling_graph
           dangling_lanes 0
           (LaneNode_init 0 (diag 0) (diag 1) [diag 0; diag 1]));
    by vm_compute.
Defined.

Lemma a_star_lane_level_log_exact_witness :
  ∃ st,
    a_star_lane_level grid_geodesic 3 dangling_graph dangling_lanes 0 1
    = Returned (Some [0; 1]%Z) st
    ∧ (WarnLaneNotFound 99 ∈ log st
       ↔ dangling_lanes !! 99%Z = None
         ∧ ∃ c, c ∈ closed_set st ∧ c ≠ 1%Z
                ∧ 99%Z ∈ default [] (dangling_graph !! c)).
Proof.
  eexists. split; [by vm_compute|].
  apply (a_star_lane_level_log_exact grid_geodesic 3 dangling_graph
           dangling_lanes 0 1 (Some [0; 1]%Z)).
  by vm_compute.
Defined.

(** The lane objects of [crossing_map] with search fields left over. *)
Lemma try_compute_path_ignores_search_fields_witness :
  try_compute_path grid_geodesic 5
    {| entries := (λ lane, set_search lane 1 2 3 (Some 4%Z))
                    <$> entries (load_lane_graph crossing_map).1;
       keys := keys (load_lane_graph crossing_map).1 |}
    (load_lane_graph crossing_map).2 (Some at_S) (Some at_G)
  = try_compute_path grid_geodesic 5 (load_lane_graph crossing_map).1
      (load_lane_graph crossing_map).2 (Some at_S) (Some at_G).
Proof.
  apply try_compute_path_ignores_search_fields; by vm_compute.
Defined.

Lemma try_compute_path_follows_lane_path_witness :
  try_compute_path grid_geodesic 5 (load_lane_graph crossing_map).1
    (load_lane_graph crossing_map).2 (Some at_S) (Some at_G)
  = Path [at_S; at_A; at_D]
  ∧ ∃ start_lane goal_lane goal lane_path,
      find_closest_lane_node grid_geodesic
        {| entries :=
             reset_lane_states (entries (load_lane_graph crossing_map).1);
           keys := keys (load_lane_graph crossing_map).1 |} at_S
      = Some start_lane
      ∧ find_closest_lane_node grid_geodesic
          {| entries :=
               reset_lane_states (entries (load_lane_graph crossing_map).1);
             keys := keys (load_lane_graph crossing_map).1 |} at_G
        = Some goal_lane
      ∧ entries (load_lane_graph crossing_map).1 !! goal_lane = Some goal
      ∧ head lane_path = Some start_lane ∧ last lane_path = Some goal_lane
      ∧ NoDup lane_path
      ∧ successor_connected (load_lane_graph crossing_map).2 lane_path
        = true
      ∧ [at_S; at_A; at_D]
        = remove_cycles_from_path
            (extract_centerline_path
               (entries (load_lane_graph crossing_map).1)
               (removelast lane_path)
             ++ truncate_goal_lane grid_geodesic (center goal) at_G
                                   0x1.999999999999ap-4 5).
Proof.
  split; [by vm_compute|].
  apply (try_compute_path_follows_lane_path grid_geodesic 5
           (load_lane_graph crossing_map).1 (load_lane_graph crossing_map).2
           at_S at_G).
  by vm_compute.
Defined.

Lemma try_compute_path_published_witness :
  try_compute_path grid_geodesic 3 (load_lane_graph dangling_map).1
    (load_lane_graph dangling_map).2 (Some (diag 0)) (Some (3, 2)%Z)
  = Path [diag 0; diag 1; (3, 2)%Z]
  ∧ (∀ k lane, entries (load_lane_graph dangling_map).1 !! k = Some lane →
               (3, 2)%Z ∉ center lane)
  ∧ last [diag 0; diag 1; (3, 2)%Z] = Some (3, 2)%Z.
Proof.
  assert (∀ k lane, entries (load_lane_graph dangling_map).1 !! k = Some lane →
                    (3, 2)%Z ∉ center lane) as Hfresh.
  { intros k lane Hk.
    destruct (decide (k = 0%Z)) as [-> | H0];
      [vm_compute in Hk; injection Hk as <-;
       apply (bool_decide_unpack _); by vm_compute|].
    destruct (decide (k = 1%Z)) as [-> | H1];
      [vm_compute in Hk; injection Hk as <-;
       apply (bool_decide_unpack _); by vm_compute|].
    assert (k ∉ dom (entries (load_lane_graph dangling_map).1)) as Hdom.
    { replace (dom (entries (load_lane_graph dangling_map).1))
        with ({[0%Z; 1%Z]} : gset Z) by (by vm_compute).
      intros [?%elem_of_singleton | ?%elem_of_singleton]%elem_of_union;
        done. }
    exfalso. apply Hdom. by apply elem_of_dom. }
  split; [by vm_compute|]. split; [done|].
  apply (try_compute_path_published grid_geodesic 3
           (load_lane_graph dangling_map).1 (load_lane_graph dangling_map).2
           (diag 0) (3, 2)%Z); [by vm_compute|done].
Defined.

Lemma a_star_lane_level_without_exception_witness :
  ∃ st,
    Checked.a_star_lane_level grid_geodesic grid_accepts 3 dangling_graph
                              dangling_lanes 0 1
    = Ok (Returned (Some [0; 1]%Z) st)
    ∧ a_star_lane_level grid_geodesic 3 dangling_graph dangling_lanes 0 1
      = Returned (Some [0; 1]%Z) st.
Proof.
  eexists. split; [by vm_compute|].
  apply (a_star_lane_level_without_exception grid_geodesic grid_accepts).
  by vm_compute.
Defined.

Lemma dangling_map_accepted : map_accepted grid_accepts dangling_lanes.
Proof.
  intros k lane Hk.
  assert (k ∈ dom dangling_lanes) as Hdom by (by apply elem_of_dom).
  replace (dom dangling_lanes) with ({[0%Z; 1%Z]} : gset Z) in Hdom
    by (by vm_compute).
  apply elem_of_union in Hdom as [->%elem_of_singleton | ->%elem_of_singleton];
    vm_compute in Hk; injection Hk as <-;
    (repeat split; [by vm_compute..|]); by repeat constructor.
Qed.

Lemma a_star_lane_level_accepted_returns_witness :
  1 + successor_entries dangling_graph dangling_lanes < 4
  ∧ ∃ result st,
      Checked.a_star_lane_level grid_geodesic grid_accepts 4 dangling_graph
                                dangling_lanes 0 1
      = Ok (Returned result st).
Proof.
  assert (1 + successor_entries dangling_graph dangling_lanes < 4) as Hfuel.
  { vm_compute. lia. }
  split; [done|].
  apply (a_star_lane_level_accepted_returns grid_geodesic grid_accepts 4
           dangling_graph dangling_lanes 0 1
           (LaneNode_init 0 (diag 0) (diag 1) [diag 0; diag 1]));
    [apply dangling_map_accepted|by vm_compute|by vm_compute| |done].
  exists (LaneNode_init 1 (diag 1) (diag 2) [diag 1; diag 2]).
  by vm_compute.
Defined.

(** On [far_east_map] the lengths are measured, the latitude 40 being read
    as latitude, and the search raises, the longitude 101 being read as
    latitude by [heuristic]. *)
Lemma a_star_lane_level_raises_witness :
  Checked.lane_length grid_geodesic grid_accepts
    (LaneNode_init 0 (100, 40)%Z (101, 40)%Z [(100, 40); (101, 40)]%Z)
  = Ok 1%float
  ∧ Checked.a_star_lane_level grid_geodesic grid_accepts 4
      (load_lane_graph far_east_map).2
      (entries (load_lane_graph far_east_map).1) 0 1
    = Raise ValueError.
Proof.
  split; [by vm_compute|].
  apply (a_star_lane_level_raises grid_geodesic grid_accepts 4 _ _ 0 1
           (LaneNode_init 0 (100, 40)%Z (101, 40)%Z
                          [(100, 40); (101, 40)]%Z)
           (LaneNode_init 1 (101, 40)%Z (102, 40)%Z
                          [(101, 40); (102, 40)]%Z));
    by vm_compute.
Defined.
